(** * plaster.loaders: loader resolution

    A shallow embedding of [src/plaster/loaders.py] and the properties of
    loader discovery and resolution.

    Strings are byte strings ([string] of the standard library) and
    [str.lower()] acts on the ASCII letters.  Everything that lives outside
    the module (the [pkg_resources] working set, the code of the plugins,
    the loaders they build) is reached through a [Host] record; the calls
    made to it are logged, so that statements about what is queried and how
    often can be written down. *)

From Stdlib Require Import String Ascii List Bool Arith Lia.
Import ListNotations.
Open Scope string_scope.
Open Scope list_scope.

(** ** Python strings *)

Module Str.

Definition is_upper (c : ascii) : bool :=
  let n := nat_of_ascii c in ((65 <=? n)%nat && (n <=? 90)%nat)%bool.

Definition is_lower (c : ascii) : bool :=
  let n := nat_of_ascii c in ((97 <=? n)%nat && (n <=? 122)%nat)%bool.

Definition lower_char (c : ascii) : ascii :=
  if is_upper c then ascii_of_nat (nat_of_ascii c + 32) else c.

Definition upper_char (c : ascii) : ascii :=
  if is_lower c then ascii_of_nat (nat_of_ascii c - 32) else c.

(** [s.lower()] *)
Fixpoint lower (s : string) : string :=
  match s with
  | EmptyString => EmptyString
  | String c s' => String (lower_char c) (lower s')
  end.

(** [sep in s] for a one-character [sep] *)
Fixpoint contains (sep : ascii) (s : string) : bool :=
  match s with
  | EmptyString => false
  | String c s' => Ascii.eqb c sep || contains sep s'
  end.

(** number of occurrences of [sep] in [s]: [s.count(sep)] *)
Fixpoint count (sep : ascii) (s : string) : nat :=
  match s with
  | EmptyString => 0
  | String c s' => (if Ascii.eqb c sep then 1 else 0) + count sep s'
  end.

(** The cut made by [s.rsplit(sep, 1)]: the text before and after the
    last occurrence of [sep], when there is one. *)
Fixpoint rcut (sep : ascii) (s : string) : option (string * string) :=
  match s with
  | EmptyString => None
  | String c s' =>
      match rcut sep s' with
      | Some (a, b) => Some (String c a, b)
      | None => if Ascii.eqb c sep then Some (EmptyString, s') else None
      end
  end.

(** [s.rsplit(sep, 1)] *)
Definition rsplit1 (sep : ascii) (s : string) : list string :=
  match rcut sep s with
  | Some (a, b) => [a; b]
  | None => [s]
  end.

(** The cut made by [s.split(sep, 1)], at the first occurrence. *)
Fixpoint cut (sep : ascii) (s : string) : option (string * string) :=
  match s with
  | EmptyString => None
  | String c s' =>
      if Ascii.eqb c sep then Some (EmptyString, s')
      else match cut sep s' with
           | Some (a, b) => Some (String c a, b)
           | None => None
           end
  end.

(** Two strings that differ at most in the case of their letters. *)
Inductive case_variant : string -> string -> Prop :=
| cv_empty : case_variant EmptyString EmptyString
| cv_char c1 c2 s1 s2 :
    c2 = c1 \/ c2 = lower_char c1 \/ c2 = upper_char c1 ->
    case_variant s1 s2 ->
    case_variant (String c1 s1) (String c2 s2).

End Str.

(** ** Data *)

(** A reference to a Python object that lives outside this module: a plugin
    factory, a loader, a settings dictionary. *)
Definition Object := nat.

(** Modelled from the spec: the structured value built by [plaster.uri],
    whose source is not part of this module; [loaders.py] reads only
    [scheme]. *)
Record ConfigURI := {
  scheme : string;
  path : string;
  fragment : option string }.

(** What callers hand over as [config_uri]: a raw string or an already
    parsed value. *)
Inductive UriArg :=
| Raw (s : string)
| Parsed (u : ConfigURI).

(** [pkg_resources.Distribution]: its project name and its entry map, the
    entries of each group in the order of [dict.values()]. *)
Record Distribution := {
  project_name : string;
  entry_map : list (string * list (string * string)) }.

(** [pkg_resources.EntryPoint] *)
Record EntryPoint := {
  name : string;
  target : string;
  dist : Distribution }.

(** [distro.get_entry_map(group).values()] *)
Fixpoint get_entry_map_values (m : list (string * list (string * string)))
    (d : Distribution) (group : string) : list EntryPoint :=
  match m with
  | [] => []
  | (g, entries) :: m' =>
      if String.eqb g group
      then map (fun e => {| name := fst e; target := snd e; dist := d |}) entries
      else get_entry_map_values m' d group
  end.

Definition get_entry_map (d : Distribution) (group : string) : list EntryPoint :=
  get_entry_map_values (entry_map d) d group.

(** [EntryPointLoaderInfo]: the attributes set by [__init__]. *)
Record EntryPointLoaderInfo := {
  entry_point : EntryPoint;
  info_scheme : string;
  info_protocol : option string;
  _factory : option Object }.

(** Exceptions.  Those of [plaster.exceptions] carry the arguments they
    are raised with; [Foreign] stands for whatever code outside the module
    raises. *)
Inductive Exn :=
| InvalidURI (uri : string)
| LoaderNotFound (requested : string) (protocol : option string)
| MultipleLoadersFound (requested : string)
    (loaders : list EntryPointLoaderInfo) (protocol : option string)
| DistributionNotFound
| TypeError
| IndexError
| Foreign (what : string).

Inductive Result (A : Type) :=
| Ok (a : A)
| Raise (e : Exn).
Arguments Ok {A} a.
Arguments Raise {A} e.

(** ** The host *)

(** The interpreter state outside the module, the two functions of
    [pkg_resources] the module calls, and the plugin code: importing an
    entry point, calling a factory, calling the methods of a loader.

    The working set is a fixed snapshot: [get_distribution] succeeds or
    raises but does not change the interpreter state, and entry maps and
    [iter_entry_points] are plain reads that do not raise.  Statements
    below are about the results and the calls made, under this reading of
    the working set. *)
Record Host := {
  World : Type;
  get_distribution : string -> Result Distribution;
  iter_entry_points : string -> list EntryPoint;
  ep_load : EntryPoint -> World -> Result (option Object) * World;
  call : Object -> ConfigURI -> World -> Result Object * World;
  loader_get_sections : Object -> World -> Result Object * World;
  loader_get_settings :
    Object -> option string -> option Object -> World -> Result Object * World;
  loader_setup_logging : Object -> option Object -> World -> Result Object * World }.

(** The calls that leave the module, in the order they are made. *)
Inductive Event :=
| CallGetDistribution (req : string)
| CallGetEntryMap (d : Distribution) (group : string)
| CallIterEntryPoints (group : string)
| CallEpLoad (ep : EntryPoint) (outcome : Result (option Object))
| CallFactory (f : Object) (u : ConfigURI)
| CallGetSections (loader : Object)
| CallGetSettings (loader : Object) (section : option string) (defaults : option Object)
| CallSetupLogging (loader : Object) (defaults : option Object).

(** ** Computations: state and exceptions

    A raised exception keeps the effects made before it. *)

Definition M (S A : Type) : Type := S -> Result A * S.

Definition ret {S A} (a : A) : M S A := fun s => (Ok a, s).

Definition raise {S A} (e : Exn) : M S A := fun s => (Raise e, s).

Definition bind {S A B} (m : M S A) (k : A -> M S B) : M S B :=
  fun s =>
    match m s with
    | (Ok a, s') => k a s'
    | (Raise e, s') => (Raise e, s')
    end.

Definition lift {S A} (r : Result A) : M S A := fun s => (r, s).

(** [try: body / except <caught>: handler / else: orelse] *)
Definition try_except_else {S A B} (body : M S A) (caught : Exn -> bool)
    (handler : M S B) (orelse : A -> M S B) : M S B :=
  fun s =>
    match body s with
    | (Ok a, s') => orelse a s'
    | (Raise e, s') => if caught e then handler s' else (Raise e, s')
    end.

Declare Scope py_scope.
Delimit Scope py_scope with py.
Notation "x <- m ;; k" := (bind m (fun x => k))
  (at level 100, m at next level, right associativity) : py_scope.
Notation "m ;;; k" := (bind m (fun _ => k))
  (at level 100, right associativity) : py_scope.
Open Scope py_scope.

(** ** The module *)

Section Loaders.

Variable H : Host.

(** [plaster.uri.parse_uri] is defined in another module; the functions
    below take it as a parameter: a function without side effects that
    returns a structured value or raises. *)
Variable parse_uri : UriArg -> Result ConfigURI.

(** The interpreter state together with the log of outside calls. *)
Record St := {
  world : World H;
  calls : list Event }.

Definition log (e : Event) (w : World H) (st : St) : St :=
  {| world := w; calls := calls st ++ [e] |}.

(** *** Outside calls *)

Definition pkg_get_distribution (req : string) : M St Distribution :=
  fun st => (get_distribution H req, log (CallGetDistribution req) (world st) st).

Definition distro_get_entry_map (d : Distribution) (group : string)
  : M St (list EntryPoint) :=
  fun st => (Ok (get_entry_map d group), log (CallGetEntryMap d group) (world st) st).

Definition pkg_iter_entry_points (group : string) : M St (list EntryPoint) :=
  fun st =>
    (Ok (iter_entry_points H group), log (CallIterEntryPoints group) (world st) st).

Definition entry_point_load (ep : EntryPoint) : M St (option Object) :=
  fun st =>
    let (r, w) := ep_load H ep (world st) in (r, log (CallEpLoad ep r) w st).

(** [f(config_uri)] for whatever object [f] is; [None] is not callable. *)
Definition call_object (f : option Object) (u : ConfigURI) : M St Object :=
  match f with
  | None => raise TypeError
  | Some o =>
      fun st => let (r, w) := call H o u (world st) in (r, log (CallFactory o u) w st)
  end.

Definition call_get_sections (loader : Object) : M St Object :=
  fun st =>
    let (r, w) := loader_get_sections H loader (world st) in
    (r, log (CallGetSections loader) w st).

Definition call_get_settings (loader : Object) (section : option string)
    (defaults : option Object) : M St Object :=
  fun st =>
    let (r, w) := loader_get_settings H loader section defaults (world st) in
    (r, log (CallGetSettings loader section defaults) w st).

Definition call_setup_logging (loader : Object) (defaults : option Object)
  : M St Object :=
  fun st =>
    let (r, w) := loader_setup_logging H loader defaults (world st) in
    (r, log (CallSetupLogging loader defaults) w st).

(** *** class EntryPointLoaderInfo

    A method runs on the instance [self] and the state; what it does to
    [self] stays when it raises. *)

Definition Self : Type := EntryPointLoaderInfo * St.

Definition get_self : M Self EntryPointLoaderInfo := fun s => (Ok (fst s), s).

Definition set__factory (v : option Object) : M Self unit :=
  fun s =>
    (Ok tt, ({| entry_point := entry_point (fst s);
                info_scheme := info_scheme (fst s);
                info_protocol := info_protocol (fst s);
                _factory := v |}, snd s)).

(** An outside call made from a method. *)
Definition outside {A} (m : M St A) : M Self A :=
  fun s => let (r, st) := m (snd s) in (r, (fst s, st)).

(** A method call on [self] made from module level. *)
Definition on {A} (self : EntryPointLoaderInfo) (m : M Self A) : M St A :=
  fun st => let (r, s) := m (self, st) in (r, snd s).

(** [__init__(self, ep, protocol=None)] *)
Definition EntryPointLoaderInfo_init (ep : EntryPoint) (protocol : option string)
  : EntryPointLoaderInfo :=
  {| entry_point := ep;
     info_scheme := name ep ++ "+" ++ project_name (dist ep);
     info_protocol := protocol;
     _factory := None |}.

(** The [factory] property. *)
Definition factory : M Self (option Object) :=
  self <- get_self ;;
  (match _factory self with
   | None =>
       v <- outside (entry_point_load (entry_point self)) ;;
       set__factory v
   | Some _ => ret tt
   end) ;;;
  self <- get_self ;;
  ret (_factory self).

(** [load(self, config_uri)] *)
Definition load (config_uri : UriArg) : M Self Object :=
  config_uri <- lift (parse_uri config_uri) ;;
  f <- factory ;;
  outside (call_object f config_uri).

(** *** find_loaders *)

Definition group_of (protocol : option string) : string :=
  match protocol with
  | None => "plaster.loader_factory"
  | Some protocol => "plaster.loader_factory." ++ protocol
  end.

Definition is_DistributionNotFound (e : Exn) : bool :=
  match e with DistributionNotFound => true | _ => false end.

(** [if scheme is None or scheme == ep.name.lower()] *)
Definition scheme_matches (scheme : option string) (ep : EntryPoint) : bool :=
  match scheme with
  | None => true
  | Some scheme => String.eqb scheme (Str.lower (name ep))
  end.

(** The two locals that the body rebinds, [scheme] and
    [matched_entry_points], are threaded through the [if scheme is not
    None] block as a pair; a loop that appends the entries passing a test
    is the list extended by the filtered entries. *)
Definition find_loaders (scheme : option string) (protocol : option string)
  : M St (list EntryPointLoaderInfo) :=
  let matched_entry_points := [] in
  let group := group_of protocol in
  locals <-
    (match scheme with
     | Some scheme =>
         let scheme := Str.lower scheme in
         let parts := Str.rsplit1 "+" scheme in
         if Nat.eqb (length parts) 2
         then
           try_except_else (pkg_get_distribution (nth 1 parts ""))
             is_DistributionNotFound
             (ret (Some scheme, matched_entry_points))
             (fun distro =>
                let scheme := nth 0 parts "" in
                eps <- distro_get_entry_map distro group ;;
                ret (Some scheme,
                     matched_entry_points ++
                     filter (fun ep => String.eqb scheme (Str.lower (name ep))) eps))
         else ret (Some scheme, matched_entry_points)
     | None => ret (None, matched_entry_points)
     end) ;;
  let scheme := fst locals in
  let matched_entry_points := snd locals in
  matched_entry_points <-
    (match matched_entry_points with
     | [] =>
         eps <- pkg_iter_entry_points group ;;
         ret (matched_entry_points ++ filter (scheme_matches scheme) eps)
     | _ :: _ => ret matched_entry_points
     end) ;;
  ret (map (fun ep => EntryPointLoaderInfo_init ep protocol) matched_entry_points).

(** *** get_loader and the facade *)

Definition get_loader (config_uri : UriArg) (protocol : option string)
  : M St Object :=
  config_uri <- lift (parse_uri config_uri) ;;
  let requested_scheme := scheme config_uri in
  matched_loaders <- find_loaders (Some requested_scheme) protocol ;;
  if Nat.ltb (length matched_loaders) 1
  then raise (LoaderNotFound requested_scheme protocol)
  else if Nat.ltb 1 (length matched_loaders)
  then raise (MultipleLoadersFound requested_scheme matched_loaders protocol)
  else
    match matched_loaders with
    | loader_info :: _ => on loader_info (load (Parsed config_uri))
    | [] => raise IndexError
    end.

Definition get_sections (config_uri : UriArg) : M St Object :=
  loader <- get_loader config_uri None ;;
  call_get_sections loader.

Definition get_settings (config_uri : UriArg) (section : option string)
    (defaults : option Object) : M St Object :=
  loader <- get_loader config_uri None ;;
  call_get_settings loader section defaults.

Definition setup_logging (config_uri : UriArg) (defaults : option Object)
  : M St Object :=
  loader <- get_loader config_uri None ;;
  call_setup_logging loader defaults.

End Loaders.

Arguments world {H} s.
Arguments calls {H} s.

(** ** URI parsing *)

(** Modelled from the spec: [parse_uri] of [plaster.uri], whose source is
    not part of this module.  A structured value is passed through; a raw
    string must contain the scheme separator [:], and what follows it is
    split at [#] into the path and the optional fragment; a string with no
    separator fails with [InvalidURI]. *)
Definition spec_parse_uri (input : UriArg) : Result ConfigURI :=
  match input with
  | Parsed u => Ok u
  | Raw s =>
      match Str.cut ":" s with
      | None => Raise (InvalidURI s)
      | Some (sch, rest) =>
          match Str.cut "#" rest with
          | Some (p, frag) => Ok {| scheme := sch; path := p; fragment := Some frag |}
          | None => Ok {| scheme := sch; path := rest; fragment := None |}
          end
      end
  end.

(** ** Observations on the log *)

(** The group an outside call asks for, when it asks for one. *)
Definition event_group (e : Event) : option string :=
  match e with
  | CallGetEntryMap _ g => Some g
  | CallIterEntryPoints g => Some g
  | _ => None
  end.

(** The requirement strings handed to [pkg_resources.get_distribution]. *)
Fixpoint distribution_requests (evs : list Event) : list string :=
  match evs with
  | [] => []
  | CallGetDistribution req :: evs' => req :: distribution_requests evs'
  | _ :: evs' => distribution_requests evs'
  end.

(** The outcomes of the [ep.load()] calls. *)
Fixpoint load_outcomes (evs : list Event) : list (Result (option Object)) :=
  match evs with
  | [] => []
  | CallEpLoad _ r :: evs' => r :: load_outcomes evs'
  | _ :: evs' => load_outcomes evs'
  end.

(** An [ep.load()] that produced a factory. *)
Definition resolved (r : Result (option Object)) : bool :=
  match r with
  | Ok (Some _) => true
  | _ => false
  end.

(** The calls added to the log between two states. *)
Definition new_calls {H} (st st' : St H) : list Event :=
  skipn (length (calls st)) (calls st').

(** An entry point that some installed distribution registers under
    [group]: the search over all packages yields it, or a distribution that
    can be resolved has it in its entry map. *)
Definition registered_under (H : Host) (group : string) (ep : EntryPoint) : Prop :=
  In ep (iter_entry_points H group) \/
  exists req d, get_distribution H req = Ok d /\ In ep (get_entry_map d group).

(** ** The paths through find_loaders *)

Section Routes.

Variable H : Host.

Implicit Types (st : St H) (scheme : string) (protocol : option string).

(** The descriptors built for the entry points that passed the test. *)
Definition infos_of protocol (eps : list EntryPoint) : list EntryPointLoaderInfo :=
  map (fun ep => EntryPointLoaderInfo_init ep protocol) eps.

Definition named (bare : string) (ep : EntryPoint) : bool :=
  String.eqb bare (Str.lower (name ep)).

(** The state after the listed outside calls, none of which touches the
    interpreter state. *)
Definition after st (evs : list Event) : St H :=
  {| world := world st; calls := calls st ++ evs |}.

(** Every call of [find_loaders] takes one of five paths. *)
Inductive route scheme protocol st : Result (list EntryPointLoaderInfo) * St H -> Prop :=
| route_bare :
    Str.rcut "+" (Str.lower scheme) = None ->
    route scheme protocol st
      (Ok (infos_of protocol
             (filter (named (Str.lower scheme))
                (iter_entry_points H (group_of protocol)))),
       after st [CallIterEntryPoints (group_of protocol)])
| route_not_installed bare req :
    Str.rcut "+" (Str.lower scheme) = Some (bare, req) ->
    get_distribution H req = Raise DistributionNotFound ->
    route scheme protocol st
      (Ok (infos_of protocol
             (filter (named (Str.lower scheme))
                (iter_entry_points H (group_of protocol)))),
       after st [CallGetDistribution req; CallIterEntryPoints (group_of protocol)])
| route_lookup_fails bare req e :
    Str.rcut "+" (Str.lower scheme) = Some (bare, req) ->
    get_distribution H req = Raise e ->
    is_DistributionNotFound e = false ->
    route scheme protocol st (Raise e, after st [CallGetDistribution req])
| route_scoped bare req distro :
    Str.rcut "+" (Str.lower scheme) = Some (bare, req) ->
    get_distribution H req = Ok distro ->
    filter (named bare) (get_entry_map distro (group_of protocol)) <> [] ->
    route scheme protocol st
      (Ok (infos_of protocol
             (filter (named bare) (get_entry_map distro (group_of protocol)))),
       after st [CallGetDistribution req;
                 CallGetEntryMap distro (group_of protocol)])
| route_scoped_empty bare req distro :
    Str.rcut "+" (Str.lower scheme) = Some (bare, req) ->
    get_distribution H req = Ok distro ->
    filter (named bare) (get_entry_map distro (group_of protocol)) = [] ->
    route scheme protocol st
      (Ok (infos_of protocol
             (filter (named bare) (iter_entry_points H (group_of protocol)))),
       after st [CallGetDistribution req;
                 CallGetEntryMap distro (group_of protocol);
                 CallIterEntryPoints (group_of protocol)]).

End Routes.

Arguments after {H} st evs.
Arguments route {H} scheme protocol st _.

(** ** Uses of one instance *)

(** What a holder of an [EntryPointLoaderInfo] can do with it. *)
Inductive Use :=
| ReadFactory
| Load (config_uri : UriArg).

Section Uses.

Variable H : Host.
Variable parse_uri : UriArg -> Result ConfigURI.

Definition use (u : Use) (s : Self H) : Self H :=
  match u with
  | ReadFactory => snd (factory H s)
  | Load config_uri => snd (load H parse_uri config_uri s)
  end.

(** A sequence of uses, each one caught by the caller if it raises. *)
Definition uses (us : list Use) (s : Self H) : Self H :=
  fold_left (fun s u => use u s) us s.

End Uses.

(** ** A small working set *)

Module Demo.

Definition distA : Distribution :=
  {| project_name := "distA";
     entry_map :=
       [("plaster.loader_factory", [("ini", "dista.loaders:Loader")]);
        ("plaster.loader_factory.wsgi", [("ini", "dista.loaders:WSGILoader")])] |}.

Definition distB : Distribution :=
  {| project_name := "distB";
     entry_map :=
       [("plaster.loader_factory",
         [("ini", "distb:Loader"); ("yaml", "distb:YAMLLoader")])] |}.

Definition distC : Distribution :=
  {| project_name := "c";
     entry_map := [("plaster.loader_factory", [("json", "c:broken")])] |}.

Definition working_set : list Distribution := [distA; distB; distC].

Fixpoint find_distribution (ws : list Distribution) (req : string)
  : Result Distribution :=
  match ws with
  | [] => Raise DistributionNotFound
  | d :: ws' =>
      if String.eqb (Str.lower (project_name d)) (Str.lower req) then Ok d
      else find_distribution ws' req
  end.

(** The plugins: [distb:YAMLLoader] cannot be imported, [c:broken] is an
    attribute that is [None], every other target is a factory named by
    the length of its target; a factory builds the loader numbered one
    above it; loaders answer with fixed objects.  The world counts the
    imports attempted. *)
Definition import (ep : EntryPoint) : Result (option Object) :=
  if String.eqb (target ep) "distb:YAMLLoader" then Raise (Foreign "ImportError")
  else if String.eqb (target ep) "c:broken" then Ok None
  else Ok (Some (String.length (target ep))).

Definition host : Host :=
  {| World := nat;
     get_distribution := find_distribution working_set;
     iter_entry_points := fun g => flat_map (fun d => get_entry_map d g) working_set;
     ep_load := fun ep w => (import ep, S w);
     call := fun f _ w => (Ok (S f), w);
     loader_get_sections := fun _ w => (Ok 1000, w);
     loader_get_settings := fun l section _ w =>
       match section with
       | Some _ => (Ok 2000, w)
       | None => (Raise (Foreign "NoSectionError"), w)
       end;
     loader_setup_logging := fun _ _ w => (Ok 0, w) |}.

Definition start : St host := Build_St host 0 [].

Definition ini_A : EntryPoint :=
  {| name := "ini"; target := "dista.loaders:Loader"; dist := distA |}.
Definition ini_A_wsgi : EntryPoint :=
  {| name := "ini"; target := "dista.loaders:WSGILoader"; dist := distA |}.
Definition ini_B : EntryPoint :=
  {| name := "ini"; target := "distb:Loader"; dist := distB |}.
Definition yaml_B : EntryPoint :=
  {| name := "yaml"; target := "distb:YAMLLoader"; dist := distB |}.
Definition json_C : EntryPoint :=
  {| name := "json"; target := "c:broken"; dist := distC |}.

End Demo.

(** ** The distribution step *)

(** [find_loaders] asks [pkg_resources] to resolve a distribution. *)
Definition asks_for_distribution {H} (scheme : string) (protocol : option string)
    (st : St H) : Prop :=
  exists req,
    In (CallGetDistribution req)
       (new_calls st (snd (find_loaders H (Some scheme) protocol st))).

(** The rule "the distribution step is taken precisely when the scheme has
    exactly one [+]". *)
Definition distribution_step_iff_one_plus {H} (scheme : string)
    (protocol : option string) (st : St H) : Prop :=
  asks_for_distribution scheme protocol st <-> Str.count "+" scheme = 1.

(** ** Imports made through one instance *)

(** The outcomes of the [ep.load()] calls made by a sequence of uses of a
    newly built descriptor. *)
Definition imports (H : Host) (parse_uri : UriArg -> Result ConfigURI)
    (ep : EntryPoint) (protocol : option string) (st : St H) (us : list Use)
  : list (Result (option Object)) :=
  load_outcomes
    (new_calls st
       (snd (uses H parse_uri us (EntryPointLoaderInfo_init ep protocol, st)))).

(** The rule "the entry point is loaded at most once per instance". *)
Definition loads_at_most_once (H : Host) (parse_uri : UriArg -> Result ConfigURI)
    (ep : EntryPoint) (protocol : option string) (st : St H) (us : list Use) : Prop :=
  length (imports H parse_uri ep protocol st us) <= 1.

Definition unresolved (r : Result (option Object)) : bool := negb (resolved r).

(** How the imports made so far and the memo slot go together: nothing
    memoized and no import has produced a factory, or the last import
    produced the memoized factory and no earlier one produced any. *)
Definition settled (rs : list (Result (option Object))) (memo : option Object) : Prop :=
  match memo with
  | Some f => exists l, rs = l ++ [Ok (Some f)] /\ forallb unresolved l = true
  | None => forallb unresolved rs = true
  end.

(** ** Kinds of outside calls *)

(** A query of the [pkg_resources] working set. *)
Definition is_pkg_call (e : Event) : bool :=
  match e with
  | CallGetDistribution _ | CallGetEntryMap _ _ | CallIterEntryPoints _ => true
  | _ => false
  end.

(** A call of a method of a loader. *)
Definition is_loader_call (e : Event) : bool :=
  match e with
  | CallGetSections _ | CallGetSettings _ _ _ | CallSetupLogging _ _ => true
  | _ => false
  end.

(** The entry points whose [load()] was called. *)
Fixpoint imported (evs : list Event) : list EntryPoint :=
  match evs with
  | [] => []
  | CallEpLoad ep _ :: evs' => ep :: imported evs'
  | _ :: evs' => imported evs'
  end.

(** The factory calls, each with the URI it was given. *)
Fixpoint factory_calls (evs : list Event) : list (Object * ConfigURI) :=
  match evs with
  | [] => []
  | CallFactory f u :: evs' => (f, u) :: factory_calls evs'
  | _ :: evs' => factory_calls evs'
  end.

(** A continuation that is one call of a method of the loader. *)
Definition one_loader_call {H : Host} (k : Object -> M (St H) Object) : Prop :=
  forall loader st1,
    exists e, calls (snd (k loader st1)) = calls st1 ++ [e] /\ is_loader_call e = true.

(** ** A working set that misbehaves *)

Module Rough.

(** The working set of [Demo], except that an empty requirement string is
    refused with an error of its own and that the first import attempted
    in the process fails, while later ones give a factory. *)
Definition host : Host :=
  {| World := nat;
     get_distribution := fun req =>
       if String.eqb req "" then Raise (Foreign "ValueError")
       else Demo.find_distribution Demo.working_set req;
     iter_entry_points := iter_entry_points Demo.host;
     ep_load := fun _ w =>
       if Nat.eqb w 0 then (Raise (Foreign "ImportError"), 1) else (Ok (Some 7), S w);
     call := fun f _ w => (Ok (S f), w);
     loader_get_sections := fun _ w => (Ok 1000, w);
     loader_get_settings := fun _ _ _ w => (Ok 2000, w);
     loader_setup_logging := fun _ _ w => (Ok 0, w) |}.

Definition start : St host := Build_St host 0 [].

End Rough.

(** * Properties *)

(** ** Strings *)

Module StrFacts.
Import Str.

Ltac by_cases_on c :=
  destruct c as [b0 b1 b2 b3 b4 b5 b6 b7];
  destruct b0, b1, b2, b3, b4, b5, b6, b7; vm_compute; reflexivity.

Lemma lower_char_idem (c : ascii) : lower_char (lower_char c) = lower_char c.
Proof. by_cases_on c. Qed.

Lemma lower_upper_char (c : ascii) : lower_char (upper_char c) = lower_char c.
Proof. by_cases_on c. Qed.

Lemma lower_char_plus (c : ascii) :
  Ascii.eqb (lower_char c) "+" = Ascii.eqb c "+".
Proof. by_cases_on c. Qed.

Lemma case_variant_lower (s s' : string) :
  case_variant s s' -> lower s = lower s'.
Proof.
  induction 1 as [| c1 c2 s1 s2 Hc _ IH]; [reflexivity |].
  simpl. rewrite IH. f_equal.
  destruct Hc as [-> | [-> | ->]];
    auto using lower_char_idem, lower_upper_char, eq_sym.
Qed.

Lemma case_variant_refl (s : string) : case_variant s s.
Proof. induction s; constructor; auto. Qed.

Lemma lower_app (a b : string) : lower (a ++ b)%string = (lower a ++ lower b)%string.
Proof. induction a as [| c a IH]; simpl; [| rewrite IH]; reflexivity. Qed.

Lemma contains_lower (s : string) : contains "+" (lower s) = contains "+" s.
Proof.
  induction s as [| c s IH]; simpl; [reflexivity |].
  now rewrite lower_char_plus, IH.
Qed.

Lemma count_lower (s : string) : count "+" (lower s) = count "+" s.
Proof.
  induction s as [| c s IH]; simpl; [reflexivity |].
  now rewrite lower_char_plus, IH.
Qed.

Lemma rcut_none (sep : ascii) (s : string) :
  rcut sep s = None <-> contains sep s = false.
Proof.
  induction s as [| c s IH]; simpl; [tauto |].
  destruct (rcut sep s) as [[a b] |].
  - split; [discriminate |].
    intros E. apply orb_false_iff in E. destruct E as [_ E].
    apply IH in E. discriminate.
  - destruct (Ascii.eqb c sep); simpl; [split; discriminate |].
    split; intros _; [now apply IH | reflexivity].
Qed.

Lemma rcut_app (sep : ascii) (a b : string) :
  contains sep b = false -> rcut sep (a ++ String sep b)%string = Some (a, b).
Proof.
  intros Hb. induction a as [| c a IH]; simpl.
  - apply rcut_none in Hb. rewrite Hb, Ascii.eqb_refl. reflexivity.
  - rewrite IH. reflexivity.
Qed.

Lemma contains_count (sep : ascii) (s : string) :
  contains sep s = true <-> 1 <= count sep s.
Proof.
  induction s as [| c s IH]; simpl.
  - split; [discriminate | lia].
  - destruct (Ascii.eqb c sep); simpl; [split; [lia | reflexivity] | exact IH].
Qed.

Lemma rcut_some_count (sep : ascii) (s : string) :
  (exists a b, rcut sep s = Some (a, b)) <-> 1 <= count sep s.
Proof.
  rewrite <- contains_count. split.
  - intros (a & b & E). destruct (contains sep s) eqn:C; [reflexivity |].
    apply rcut_none in C. congruence.
  - intros C. destruct (rcut sep s) as [[a b] |] eqn:E; [eauto |].
    apply rcut_none in E. congruence.
Qed.

Lemma length_app (a b : string) :
  String.length (a ++ b) = String.length a + String.length b.
Proof. induction a as [| c a IH]; simpl; [| rewrite IH]; reflexivity. Qed.

Lemma cut_app (sep : ascii) (a b : string) :
  contains sep a = false -> cut sep (a ++ String sep b)%string = Some (a, b).
Proof.
  induction a as [| c a IH]; simpl; intros Ha.
  - now rewrite Ascii.eqb_refl.
  - apply orb_false_iff in Ha. destruct Ha as [-> Ha].
    now rewrite IH.
Qed.

End StrFacts.

(** ** The log only grows *)

Lemma new_calls_app {H} (st st' : St H) (evs : list Event) :
  calls st' = calls st ++ evs -> new_calls st st' = evs.
Proof.
  intros E. unfold new_calls. rewrite E.
  rewrite skipn_app, skipn_all, Nat.sub_diag. reflexivity.
Qed.

Lemma distribution_requests_In (evs : list Event) (req : string) :
  In (CallGetDistribution req) evs <-> In req (distribution_requests evs).
Proof.
  induction evs as [| e evs IH]; simpl; [tauto |].
  destruct e; simpl; rewrite <- IH;
    (split; [intros [E | ?]; [first [discriminate | injection E as ->] |]; auto
            | try (intros [-> | ?]); auto]).
Qed.

Lemma load_outcomes_app (l1 l2 : list Event) :
  load_outcomes (l1 ++ l2) = load_outcomes l1 ++ load_outcomes l2.
Proof.
  induction l1 as [| e l1 IH]; simpl; [reflexivity |].
  destruct e; simpl; now rewrite ?IH.
Qed.

(** ** find_loaders, path by path *)

Section FindLoadersPaths.

Variable H : Host.

Implicit Types (st : St H) (scheme : string) (protocol : option string).

Ltac run :=
  unfold find_loaders, Str.rsplit1, try_except_else, bind, ret,
    raise, lift, pkg_get_distribution, distro_get_entry_map,
    pkg_iter_entry_points, log, after, infos_of; simpl.

Lemma find_loaders_any protocol st :
  find_loaders H None protocol st =
  (Ok (infos_of protocol (iter_entry_points H (group_of protocol))),
   after st [CallIterEntryPoints (group_of protocol)]).
Proof.
  run. rewrite (proj2 (filter_ext_in_iff _ (fun _ => true) _)) by reflexivity.
  now rewrite forallb_filter_id by (apply forallb_forall; reflexivity).
Qed.

Lemma find_loaders_bare scheme protocol st :
  Str.rcut "+" (Str.lower scheme) = None ->
  find_loaders H (Some scheme) protocol st =
  (Ok (infos_of protocol
         (filter (named (Str.lower scheme)) (iter_entry_points H (group_of protocol)))),
   after st [CallIterEntryPoints (group_of protocol)]).
Proof. intros E. run. rewrite E. reflexivity. Qed.

Lemma find_loaders_not_installed scheme bare req protocol st :
  Str.rcut "+" (Str.lower scheme) = Some (bare, req) ->
  get_distribution H req = Raise DistributionNotFound ->
  find_loaders H (Some scheme) protocol st =
  (Ok (infos_of protocol
         (filter (named (Str.lower scheme)) (iter_entry_points H (group_of protocol)))),
   after st [CallGetDistribution req; CallIterEntryPoints (group_of protocol)]).
Proof.
  intros E D. run. rewrite E. simpl. rewrite D. simpl. now rewrite <- app_assoc.
Qed.

Lemma find_loaders_lookup_fails scheme bare req e protocol st :
  Str.rcut "+" (Str.lower scheme) = Some (bare, req) ->
  get_distribution H req = Raise e ->
  is_DistributionNotFound e = false ->
  find_loaders H (Some scheme) protocol st =
  (Raise e, after st [CallGetDistribution req]).
Proof. intros E D N. run. rewrite E. simpl. rewrite D, N. reflexivity. Qed.

Lemma find_loaders_scoped scheme bare req distro protocol st :
  Str.rcut "+" (Str.lower scheme) = Some (bare, req) ->
  get_distribution H req = Ok distro ->
  filter (named bare) (get_entry_map distro (group_of protocol)) <> [] ->
  find_loaders H (Some scheme) protocol st =
  (Ok (infos_of protocol
         (filter (named bare) (get_entry_map distro (group_of protocol)))),
   after st [CallGetDistribution req;
             CallGetEntryMap distro (group_of protocol)]).
Proof.
  intros E D N. run. rewrite E. simpl. rewrite D. simpl. fold (named bare).
  destruct (filter (named bare) (get_entry_map distro (group_of protocol)))
    as [| ep eps]; [congruence |].
  simpl. now rewrite <- app_assoc.
Qed.

Lemma find_loaders_scoped_empty scheme bare req distro protocol st :
  Str.rcut "+" (Str.lower scheme) = Some (bare, req) ->
  get_distribution H req = Ok distro ->
  filter (named bare) (get_entry_map distro (group_of protocol)) = [] ->
  find_loaders H (Some scheme) protocol st =
  (Ok (infos_of protocol
         (filter (named bare) (iter_entry_points H (group_of protocol)))),
   after st [CallGetDistribution req;
             CallGetEntryMap distro (group_of protocol);
             CallIterEntryPoints (group_of protocol)]).
Proof.
  intros E D N. run. rewrite E. simpl. rewrite D. simpl. fold (named bare). rewrite N.
  simpl. now rewrite <- !app_assoc.
Qed.

Lemma find_loaders_route scheme protocol st :
  route scheme protocol st (find_loaders H (Some scheme) protocol st).
Proof.
  destruct (Str.rcut "+" (Str.lower scheme)) as [[bare req] |] eqn:E.
  - destruct (get_distribution H req) as [distro | e] eqn:D.
    + destruct (filter (named bare) (get_entry_map distro (group_of protocol)))
        as [| ep eps] eqn:F.
      * rewrite (find_loaders_scoped_empty _ _ _ _ _ _ E D F).
        eapply route_scoped_empty; eauto.
      * assert (N : filter (named bare) (get_entry_map distro (group_of protocol)) <> [])
          by (rewrite F; discriminate).
        rewrite (find_loaders_scoped _ _ _ _ _ _ E D N).
        eapply route_scoped; eauto.
    + destruct (is_DistributionNotFound e) eqn:N.
      * destruct e; try discriminate.
        rewrite (find_loaders_not_installed _ _ _ _ _ E D).
        eapply route_not_installed; eauto.
      * rewrite (find_loaders_lookup_fails _ _ _ _ _ _ E D N).
        eapply route_lookup_fails; eauto.
  - rewrite (find_loaders_bare _ _ _ E). now apply route_bare.
Qed.

End FindLoadersPaths.

(** Whatever the path, the result lists descriptors built by [__init__]. *)
Lemma find_loaders_infos (H : Host) (scheme : option string)
    (protocol : option string) (st st1 : St H)
    (matched : list EntryPointLoaderInfo) :
  find_loaders H scheme protocol st = (Ok matched, st1) ->
  exists eps, matched = infos_of protocol eps.
Proof.
  destruct scheme as [scheme |].
  - pose proof (find_loaders_route H scheme protocol st) as R.
    intros F. rewrite F in R. inversion R; subst; eauto.
  - rewrite find_loaders_any. intros [= <- _]. eauto.
Qed.

Lemma infos_of_fresh (protocol : option string) (eps : list EntryPoint)
    (info : EntryPointLoaderInfo) :
  In info (infos_of protocol eps) ->
  exists ep, In ep eps /\ info = EntryPointLoaderInfo_init ep protocol.
Proof.
  unfold infos_of. intros I. apply in_map_iff in I.
  destruct I as (ep & <- & I). eauto.
Qed.

(** ** get_loader *)

(** C1: once the URI is parsed and the discovery query has answered,
    [get_loader] raises [LoaderNotFound] with the requested scheme as
    written and the protocol when there is no match, raises
    [MultipleLoadersFound] with that scheme, the whole list of matches and
    the protocol when there are several, and with exactly one match it is
    the result of [load] on that match: the loader built by the factory
    of the match whenever the import and the call of the factory succeed. *)
Theorem get_loader_outcomes (H : Host) (parse_uri : UriArg -> Result ConfigURI)
    (config_uri : UriArg) (protocol : option string) (st st1 : St H)
    (u : ConfigURI) (matched : list EntryPointLoaderInfo) :
  parse_uri config_uri = Ok u ->
  find_loaders H (Some (scheme u)) protocol st = (Ok matched, st1) ->
  (matched = [] ->
   get_loader H parse_uri config_uri protocol st =
   (Raise (LoaderNotFound (scheme u) protocol), st1)) /\
  (1 < length matched ->
   get_loader H parse_uri config_uri protocol st =
   (Raise (MultipleLoadersFound (scheme u) matched protocol), st1)) /\
  (forall info, matched = [info] ->
   get_loader H parse_uri config_uri protocol st =
   on H info (load H parse_uri (Parsed u)) st1 /\
   forall f w loader w',
     parse_uri (Parsed u) = Ok u ->
     ep_load H (entry_point info) (world st1) = (Ok (Some f), w) ->
     call H f u w = (Ok loader, w') ->
     get_loader H parse_uri config_uri protocol st =
     (Ok loader,
      {| world := w';
         calls := calls st1 ++ [CallEpLoad (entry_point info) (Ok (Some f));
                                CallFactory f u] |})).
Proof.
  intros P F. unfold get_loader, bind, lift. rewrite P, F.
  split; [| split].
  - intros ->. reflexivity.
  - intros L. destruct matched as [| i [| j rest]]; simpl in L; try lia.
    reflexivity.
  - intros info ->. simpl. split; [reflexivity |].
    intros f w loader w' P' L C.
    assert (N : _factory info = None).
    { destruct (find_loaders_infos _ _ _ _ _ _ F) as (eps & E).
      assert (I : In info (infos_of protocol eps)) by (rewrite <- E; now left).
      apply infos_of_fresh in I. destruct I as (ep & _ & ->). reflexivity. }
    unfold on, load, factory, bind, lift, get_self, set__factory, outside,
      entry_point_load, call_object, ret, log.
    rewrite P'. simpl. rewrite N. simpl. rewrite L. simpl. rewrite C. simpl.
    now rewrite <- app_assoc.
Qed.

Lemma get_loader_outcomes_witness :
  get_loader Demo.host spec_parse_uri (Raw "toml:app.toml") (Some "wsgi")
    Demo.start =
  (Raise (LoaderNotFound "toml" (Some "wsgi")),
   after Demo.start [CallIterEntryPoints "plaster.loader_factory.wsgi"]).
Proof.
  apply (get_loader_outcomes Demo.host spec_parse_uri (Raw "toml:app.toml")
           (Some "wsgi") Demo.start _
           {| scheme := "toml"; path := "app.toml"; fragment := None |} []).
  - reflexivity.
  - reflexivity.
  - reflexivity.
Defined.

(** ** The distribution step *)

Lemma new_calls_after {H} (st : St H) (evs : list Event) :
  new_calls st (after st evs) = evs.
Proof. now apply new_calls_app. Qed.

Lemma route_requests {H} (scheme : string) (protocol : option string)
    (st : St H) (r : Result (list EntryPointLoaderInfo) * St H) :
  route scheme protocol st r ->
  distribution_requests (new_calls st (snd r)) =
  match Str.rcut "+" (Str.lower scheme) with
  | Some (_, req) => [req]
  | None => []
  end.
Proof.
  intros R. inversion R as [E | b q E | b q e E | b q d E | b q d E];
    simpl; rewrite new_calls_after, E; reflexivity.
Qed.

(** C2, as the claim has it, fails: with two [+] signs the text after the
    last one is still looked up as a distribution. *)
Lemma two_plus_signs_still_ask :
  ~ distribution_step_iff_one_plus (H := Demo.host) "a+b+c" None Demo.start.
Proof.
  intros [L _].
  assert (A : asks_for_distribution (H := Demo.host) "a+b+c" None Demo.start).
  { exists "c". vm_compute. left. reflexivity. }
  apply L in A. vm_compute in A. discriminate.
Qed.

(** C2, amended: [find_loaders] with a scheme asks for a distribution
    precisely when the scheme contains at least one [+]; it asks once, for
    the lower-cased text after the last [+]; with no [+] it does not ask. *)
Theorem distribution_step_iff_some_plus (H : Host) (scheme : string)
    (protocol : option string) (st : St H) :
  (asks_for_distribution scheme protocol st <-> 1 <= Str.count "+" scheme) /\
  distribution_requests
    (new_calls st (snd (find_loaders H (Some scheme) protocol st))) =
  match Str.rcut "+" (Str.lower scheme) with
  | Some (_, req) => [req]
  | None => []
  end.
Proof.
  pose proof (route_requests scheme protocol st _
                (find_loaders_route H scheme protocol st)) as Q.
  split; [| exact Q].
  unfold asks_for_distribution.
  rewrite <- StrFacts.count_lower, <- StrFacts.rcut_some_count.
  split.
  - intros (req & I). apply distribution_requests_In in I. rewrite Q in I.
    destruct (Str.rcut "+" (Str.lower scheme)) as [[a b] |]; [eauto | destruct I].
  - intros (a & b & E). exists b. apply distribution_requests_In.
    rewrite Q, E. now left.
Qed.

(** C3: for a scheme [bare+dst] whose distribution [dst] cannot be
    resolved, [find_loaders] raises nothing: it asks for the distribution,
    then searches all installed plugins of the group and keeps those whose
    lower-cased name equals the whole lower-cased scheme [bare+dst]. *)
Theorem unresolvable_distribution_falls_through (H : Host) (bare dst : string)
    (protocol : option string) (st : St H) :
  Str.contains "+" dst = false ->
  get_distribution H (Str.lower dst) = Raise DistributionNotFound ->
  find_loaders H (Some (bare ++ "+" ++ dst)%string) protocol st =
  (Ok (infos_of protocol
         (filter (fun ep => String.eqb (Str.lower (bare ++ "+" ++ dst))
                                       (Str.lower (name ep)))
                 (iter_entry_points H (group_of protocol)))),
   after st [CallGetDistribution (Str.lower dst);
             CallIterEntryPoints (group_of protocol)]).
Proof.
  intros C D.
  apply (find_loaders_not_installed H _ (Str.lower bare)); [| exact D].
  rewrite StrFacts.lower_app. simpl.
  apply StrFacts.rcut_app. now rewrite StrFacts.contains_lower.
Qed.

Lemma unresolvable_distribution_falls_through_witness :
  find_loaders Demo.host (Some "ini+nope") None Demo.start =
  (Ok [], after Demo.start [CallGetDistribution "nope";
                               CallIterEntryPoints "plaster.loader_factory"]).
Proof.
  exact (unresolvable_distribution_falls_through
           Demo.host "ini" "nope" None Demo.start eq_refl eq_refl).
Defined.

(** C4: for a scheme [bare+dst] whose distribution [dst] is installed but
    has, under the group, no entry whose lower-cased name equals [bare]
    lower-cased, the search over all installed plugins compares names with
    the stripped [bare], not with [bare+dst]; and so a plugin of that name
    owned by another distribution can be returned. *)
Theorem installed_distribution_without_match :
  (forall (H : Host) (bare dst : string) (distro : Distribution)
          (protocol : option string) (st : St H),
      Str.contains "+" dst = false ->
      get_distribution H (Str.lower dst) = Ok distro ->
      (forall ep, In ep (get_entry_map distro (group_of protocol)) ->
                  Str.lower (name ep) <> Str.lower bare) ->
      find_loaders H (Some (bare ++ "+" ++ dst)%string) protocol st =
      (Ok (infos_of protocol
             (filter (fun ep => String.eqb (Str.lower bare) (Str.lower (name ep)))
                     (iter_entry_points H (group_of protocol)))),
       after st [CallGetDistribution (Str.lower dst);
                 CallGetEntryMap distro (group_of protocol);
                 CallIterEntryPoints (group_of protocol)])) /\
  (exists (H : Host) (bare dst : string) (distro : Distribution) (st : St H)
          (info : EntryPointLoaderInfo),
      get_distribution H (Str.lower dst) = Ok distro /\
      In info (match fst (find_loaders H (Some (bare ++ "+" ++ dst)%string) None st) with
               | Ok infos => infos
               | Raise _ => []
               end) /\
      Str.lower (name (entry_point info)) = Str.lower bare /\
      project_name (dist (entry_point info)) <> project_name distro).
Proof.
  split.
  - intros H bare dst distro protocol st C D N.
    apply (find_loaders_scoped_empty H _ (Str.lower bare) _ distro).
    + rewrite StrFacts.lower_app. simpl.
      apply StrFacts.rcut_app. now rewrite StrFacts.contains_lower.
    + exact D.
    + destruct (filter _ _) as [| ep eps] eqn:F; [reflexivity |].
      assert (I : In ep (ep :: eps)) by now left.
      rewrite <- F in I. apply filter_In in I. destruct I as [I E].
      apply String.eqb_eq in E. symmetry in E. now apply N in E.
  - exists Demo.host, "yaml", "distA", Demo.distA, Demo.start,
      (EntryPointLoaderInfo_init Demo.yaml_B None).
    split; [reflexivity |]. split; [now left |].
    split; [reflexivity | discriminate].
Qed.

Lemma installed_distribution_without_match_witness :
  find_loaders Demo.host (Some "yaml+distA") None Demo.start =
  (Ok [EntryPointLoaderInfo_init Demo.yaml_B None],
   after Demo.start [CallGetDistribution "dista";
                        CallGetEntryMap Demo.distA "plaster.loader_factory";
                        CallIterEntryPoints "plaster.loader_factory"]).
Proof.
  apply (proj1 installed_distribution_without_match
           Demo.host "yaml" "distA" Demo.distA None Demo.start).
  - reflexivity.
  - reflexivity.
  - intros ep [<- | []]. discriminate.
Defined.

(** ** Groups *)

Lemma group_of_scoped_differs (p : string) : group_of (Some p) <> group_of None.
Proof.
  intros E. apply (f_equal String.length) in E.
  unfold group_of in E. rewrite StrFacts.length_app in E. simpl in E. lia.
Qed.

Lemma filter_registered (H : Host) (group : string) (f : EntryPoint -> bool)
    (protocol : option string) (eps : list EntryPoint) :
  (forall ep, In ep eps -> registered_under H group ep) ->
  Forall (fun i => registered_under H group (entry_point i))
         (infos_of protocol (filter f eps)).
Proof.
  intros R. apply Forall_forall. intros i I.
  apply infos_of_fresh in I. destruct I as (ep & I & ->).
  apply filter_In in I. now apply R.
Qed.

Lemma find_loaders_groups (H : Host) (scheme : option string)
    (protocol : option string) (st : St H) :
  Forall (fun e => forall g, event_group e = Some g -> g = group_of protocol)
         (new_calls st (snd (find_loaders H scheme protocol st))) /\
  forall infos,
    fst (find_loaders H scheme protocol st) = Ok infos ->
    (exists e, In e (new_calls st (snd (find_loaders H scheme protocol st))) /\
               event_group e = Some (group_of protocol)) /\
    Forall (fun i => registered_under H (group_of protocol) (entry_point i)) infos.
Proof.
  assert (G : forall req evs,
             Forall (fun e => forall g, event_group e = Some g -> g = group_of protocol) evs ->
             Forall (fun e => forall g, event_group e = Some g -> g = group_of protocol)
                    (CallGetDistribution req :: evs))
    by (intros; constructor; [discriminate | assumption]).
  assert (I1 : forall evs,
             Forall (fun e => forall g, event_group e = Some g -> g = group_of protocol) evs ->
             Forall (fun e => forall g, event_group e = Some g -> g = group_of protocol)
                    (CallIterEntryPoints (group_of protocol) :: evs))
    by (intros; constructor; [now intros g [= <-] | assumption]).
  assert (I2 : forall d evs,
             Forall (fun e => forall g, event_group e = Some g -> g = group_of protocol) evs ->
             Forall (fun e => forall g, event_group e = Some g -> g = group_of protocol)
                    (CallGetEntryMap d (group_of protocol) :: evs))
    by (intros; constructor; [now intros g [= <-] | assumption]).
  assert (A : forall ep, In ep (iter_entry_points H (group_of protocol)) ->
                         registered_under H (group_of protocol) ep)
    by (intros; now left).
  destruct scheme as [scheme |].
  - pose proof (find_loaders_route H scheme protocol st) as R.
    inversion R as [E Q | b r E D Q | b r e E D N Q | b r d E D N Q | b r d E D N Q];
      simpl; rewrite new_calls_after; (split; [auto |]); intros infos [= <-].
    + split; [eexists; split; [now left | reflexivity] | now apply filter_registered].
    + split; [eexists; split; [right; now left | reflexivity]
             | now apply filter_registered].
    + split; [eexists; split; [right; now left | reflexivity] |].
      apply filter_registered. intros ep I. right. eauto.
    + split; [eexists; split; [right; now left | reflexivity]
             | now apply filter_registered].
  - rewrite find_loaders_any. simpl. rewrite new_calls_after. split; [auto |].
    intros infos [= <-].
    split; [eexists; split; [now left | reflexivity] |].
    apply Forall_forall. intros i I. apply infos_of_fresh in I.
    destruct I as (ep & I & ->). now apply A.
Qed.

(** C5: [find_loaders] queries one group: ["plaster.loader_factory"] with
    no protocol, that name followed by [.] and the protocol otherwise;
    every query it makes names this group and a call that returns has made
    one.  Hence every entry returned is registered under the group of the
    call, the group of a protocol is never the unscoped group, and an
    entry that is registered under another group only is not returned. *)
Theorem one_group_per_query (H : Host) (scheme : option string)
    (protocol : option string) (st : St H) :
  group_of None = "plaster.loader_factory" /\
  (forall p, group_of (Some p) = ("plaster.loader_factory" ++ "." ++ p)%string) /\
  (forall p, group_of (Some p) <> group_of None) /\
  Forall (fun e => forall g, event_group e = Some g -> g = group_of protocol)
         (new_calls st (snd (find_loaders H scheme protocol st))) /\
  (forall infos,
      fst (find_loaders H scheme protocol st) = Ok infos ->
      (exists e, In e (new_calls st (snd (find_loaders H scheme protocol st))) /\
                 event_group e = Some (group_of protocol)) /\
      Forall (fun i => registered_under H (group_of protocol) (entry_point i)) infos /\
      forall other ep,
        registered_under H (group_of other) ep ->
        ~ registered_under H (group_of protocol) ep ->
        ~ In ep (map entry_point infos)).
Proof.
  split; [reflexivity |].
  split; [reflexivity |].
  split; [exact group_of_scoped_differs |].
  destruct (find_loaders_groups H scheme protocol st) as [G R].
  split; [exact G |].
  intros infos F. destruct (R infos F) as [Q A].
  split; [exact Q |]. split; [exact A |].
  intros other ep _ N I. apply in_map_iff in I. destruct I as (i & <- & I).
  apply N. exact (proj1 (Forall_forall _ _) A i I).
Qed.

Lemma find_distribution_In (ws : list Distribution) (req : string) (d : Distribution) :
  Demo.find_distribution ws req = Ok d -> In d ws.
Proof.
  induction ws as [| d' ws IH]; simpl; [discriminate |].
  destruct (String.eqb _ _); [intros [= ->]; now left | auto].
Qed.

Lemma one_group_per_query_witness :
  fst (find_loaders Demo.host None (Some "wsgi") Demo.start) =
  Ok [EntryPointLoaderInfo_init Demo.ini_A_wsgi (Some "wsgi")] /\
  registered_under Demo.host (group_of None) Demo.ini_A /\
  ~ In Demo.ini_A
       (map entry_point [EntryPointLoaderInfo_init Demo.ini_A_wsgi (Some "wsgi")]).
Proof.
  split; [reflexivity |]. split; [left; now left |].
  destruct (one_group_per_query Demo.host None (Some "wsgi") Demo.start)
    as (_ & _ & _ & _ & R).
  destruct (R _ eq_refl) as (_ & _ & N).
  apply (N None); [left; now left |].
  intros [I | (req & d & D & I)].
  - simpl in I. destruct I as [E | []]. discriminate.
  - apply find_distribution_In in D. simpl in D.
    destruct D as [<- | [<- | [<- | []]]]; simpl in I;
      try (destruct I as [E | []]; discriminate); destruct I.
Defined.

(** ** Case *)

(** C6: schemes that differ only in the case of their letters are the same
    query: [find_loaders] makes the same calls and returns the same
    matches, so [get_loader] finds nothing for both, or is ambiguous for
    both with the same list, or loads the same single match for both (each
    call keeping the spelling of its own URI in what it reports and passes
    on); and with no scheme every plugin registered under the group
    matches. *)
Theorem scheme_matching_ignores_case (H : Host)
    (parse_uri : UriArg -> Result ConfigURI) (protocol : option string)
    (st : St H) :
  (forall s s',
      Str.case_variant s s' ->
      find_loaders H (Some s) protocol st = find_loaders H (Some s') protocol st) /\
  (forall c c' u u',
      parse_uri c = Ok u -> parse_uri c' = Ok u' ->
      Str.case_variant (scheme u) (scheme u') ->
      let st1 := snd (find_loaders H (Some (scheme u)) protocol st) in
      match fst (find_loaders H (Some (scheme u)) protocol st) with
      | Ok [] =>
          get_loader H parse_uri c protocol st =
            (Raise (LoaderNotFound (scheme u) protocol), st1) /\
          get_loader H parse_uri c' protocol st =
            (Raise (LoaderNotFound (scheme u') protocol), st1)
      | Ok [info] =>
          get_loader H parse_uri c protocol st =
            on H info (load H parse_uri (Parsed u)) st1 /\
          get_loader H parse_uri c' protocol st =
            on H info (load H parse_uri (Parsed u')) st1
      | Ok matched =>
          get_loader H parse_uri c protocol st =
            (Raise (MultipleLoadersFound (scheme u) matched protocol), st1) /\
          get_loader H parse_uri c' protocol st =
            (Raise (MultipleLoadersFound (scheme u') matched protocol), st1)
      | Raise e =>
          get_loader H parse_uri c protocol st = (Raise e, st1) /\
          get_loader H parse_uri c' protocol st = (Raise e, st1)
      end) /\
  find_loaders H None protocol st =
  (Ok (infos_of protocol (iter_entry_points H (group_of protocol))),
   after st [CallIterEntryPoints (group_of protocol)]).
Proof.
  assert (L : forall s s', Str.case_variant s s' ->
              find_loaders H (Some s) protocol st = find_loaders H (Some s') protocol st).
  { intros s s' V. apply StrFacts.case_variant_lower in V.
    unfold find_loaders. now rewrite V. }
  split; [exact L |]. split; [| apply find_loaders_any].
  intros c c' u u' P P' V st1. subst st1.
  unfold get_loader, bind, lift. rewrite P, P', <- (L _ _ V).
  destruct (find_loaders H (Some (scheme u)) protocol st) as [[matched | e] st1];
    simpl; [| split; reflexivity].
  destruct matched as [| i [| j rest]]; split; reflexivity.
Qed.

Lemma scheme_matching_ignores_case_witness :
  find_loaders Demo.host (Some "INI+DistB") None Demo.start =
  find_loaders Demo.host (Some "ini+distb") None Demo.start.
Proof.
  apply (proj1 (scheme_matching_ignores_case Demo.host spec_parse_uri None
                  Demo.start)).
  repeat (constructor; [vm_compute; tauto |]). constructor.
Defined.

(** ** The descriptors *)

(** C7: every descriptor returned by [find_loaders] has as [scheme] the
    name of its entry point, a [+] and the project name of the
    distribution that owns the entry point, and as [protocol] the protocol
    of the query. *)
Theorem loader_info_scheme_and_protocol (H : Host) (scheme : option string)
    (protocol : option string) (st st1 : St H)
    (infos : list EntryPointLoaderInfo) :
  find_loaders H scheme protocol st = (Ok infos, st1) ->
  Forall (fun i =>
            info_scheme i =
              (name (entry_point i) ++ "+" ++ project_name (dist (entry_point i)))%string /\
            info_protocol i = protocol /\
            registered_under H (group_of protocol) (entry_point i))
         infos.
Proof.
  intros F.
  destruct (find_loaders_groups H scheme protocol st) as [_ R].
  rewrite F in R. specialize (R infos eq_refl). destruct R as [_ R].
  destruct (find_loaders_infos _ _ _ _ _ _ F) as (eps & ->).
  apply Forall_forall. intros i I.
  pose proof (proj1 (Forall_forall _ _) R i I) as Ri.
  apply infos_of_fresh in I. destruct I as (ep & _ & ->).
  repeat split. exact Ri.
Qed.

Lemma loader_info_scheme_and_protocol_witness :
  Forall (fun i =>
            info_scheme i =
              (name (entry_point i) ++ "+" ++ project_name (dist (entry_point i)))%string /\
            info_protocol i = None /\
            registered_under Demo.host (group_of None) (entry_point i))
         [EntryPointLoaderInfo_init Demo.ini_A None;
          EntryPointLoaderInfo_init Demo.ini_B None].
Proof.
  exact (loader_info_scheme_and_protocol Demo.host (Some "INI") None
           Demo.start _ _ eq_refl).
Defined.

(** ** The memoized factory *)

Section Memo.

Variable H : Host.
Variable parse_uri : UriArg -> Result ConfigURI.

Implicit Types (self : EntryPointLoaderInfo) (st : St H).

Lemma factory_memo self st f :
  _factory self = Some f -> factory H (self, st) = (Ok (Some f), (self, st)).
Proof.
  intros E. unfold factory, bind, get_self, ret. simpl. rewrite E. simpl.
  now rewrite E.
Qed.

Lemma factory_fresh self st :
  _factory self = None ->
  exists r self',
    factory H (self, st) =
      (match r with Ok v => Ok v | Raise e => Raise e end,
       (self', log H (CallEpLoad (entry_point self) r)
                 (snd (ep_load H (entry_point self) (world st))) st)) /\
    r = fst (ep_load H (entry_point self) (world st)) /\
    entry_point self' = entry_point self /\
    _factory self' = match r with Ok v => v | Raise _ => None end.
Proof.
  intros E.
  destruct (ep_load H (entry_point self) (world st)) as [[v | e] w] eqn:L;
    unfold factory, bind, get_self, ret, outside, entry_point_load, set__factory;
    simpl; rewrite E; simpl; rewrite L; simpl.
  - eexists (Ok v), _. repeat split.
  - eexists (Raise e), self. repeat split. exact E.
Qed.

Lemma load_steps (c : UriArg) (s : Self H) :
  load H parse_uri c s =
  match parse_uri c with
  | Ok u =>
      match factory H s with
      | (Ok f, s') => outside H (call_object H f u) s'
      | (Raise e, s') => (Raise e, s')
      end
  | Raise e => (Raise e, s)
  end.
Proof.
  unfold load, bind, lift. destruct (parse_uri c); reflexivity.
Qed.

Lemma outside_call_object (f : option Object) (u : ConfigURI) self st :
  exists r evs st',
    outside H (call_object H f u) (self, st) = (r, (self, st')) /\
    calls st' = calls st ++ evs /\ load_outcomes evs = [].
Proof.
  unfold outside. destruct f as [o |]; simpl.
  - destruct (call H o u (world st)) as [r w].
    exists r, [CallFactory o u]. eexists. repeat split.
  - exists (Raise TypeError), [], st. now rewrite app_nil_r.
Qed.

Lemma use_memo (u : Use) self st f :
  _factory self = Some f ->
  exists evs,
    calls (snd (use H parse_uri u (self, st))) = calls st ++ evs /\
    load_outcomes evs = [] /\
    fst (use H parse_uri u (self, st)) = self.
Proof.
  intros E. destruct u as [| c]; unfold use.
  - rewrite (factory_memo _ _ _ E). exists []. simpl. now rewrite app_nil_r.
  - rewrite load_steps. destruct (parse_uri c) as [u | e].
    + rewrite (factory_memo _ _ _ E).
      destruct (outside_call_object (Some f) u self st) as (r & evs & st' & -> & C & L).
      simpl. eauto.
    + exists []. simpl. now rewrite app_nil_r.
Qed.

Lemma use_fresh (u : Use) self st :
  _factory self = None ->
  exists evs,
    calls (snd (use H parse_uri u (self, st))) = calls st ++ evs /\
    ((load_outcomes evs = [] /\ _factory (fst (use H parse_uri u (self, st))) = None) \/
     exists r,
       load_outcomes evs = [r] /\
       _factory (fst (use H parse_uri u (self, st))) =
         match r with Ok v => v | Raise _ => None end).
Proof.
  intros E. destruct (factory_fresh self st E) as (r & self' & F & _ & _ & M).
  destruct u as [| c]; unfold use.
  - rewrite F. simpl. eexists [_]. split; [reflexivity |]. right. now exists r.
  - rewrite load_steps. destruct (parse_uri c) as [u | e].
    + rewrite F. destruct r as [v | e].
      * set (st1 := log H _ _ st).
        destruct (outside_call_object v u self' st1) as (r & evs & st' & -> & C & L).
        exists (CallEpLoad (entry_point self) (Ok v) :: evs). simpl.
        split; [rewrite C; subst st1; simpl; now rewrite <- app_assoc |].
        right. exists (Ok v). simpl. now rewrite L.
      * simpl. eexists [_]. split; [reflexivity |]. right. now exists (Raise e).
    + exists []. simpl. rewrite app_nil_r. split; [reflexivity |]. now left.
Qed.

Lemma uses_cons (u : Use) (us : list Use) (s : Self H) :
  uses H parse_uri (u :: us) s = uses H parse_uri us (use H parse_uri u s).
Proof. reflexivity. Qed.

Lemma uses_app (us more : list Use) (s : Self H) :
  uses H parse_uri (us ++ more) s = uses H parse_uri more (uses H parse_uri us s).
Proof. unfold uses. apply fold_left_app. Qed.

Lemma uses_memo (us : list Use) self st f :
  _factory self = Some f ->
  exists evs,
    calls (snd (uses H parse_uri us (self, st))) = calls st ++ evs /\
    load_outcomes evs = [] /\
    fst (uses H parse_uri us (self, st)) = self.
Proof.
  revert self st. induction us as [| u us IH]; intros self st E.
  - exists []. simpl. now rewrite app_nil_r.
  - rewrite uses_cons.
    destruct (use_memo u self st f E) as (evs1 & C1 & L1 & S1).
    destruct (use H parse_uri u (self, st)) as [self1 st1]. simpl in *. subst self1.
    destruct (IH self st1 E) as (evs2 & C2 & L2 & S2).
    exists (evs1 ++ evs2). rewrite C2, C1, <- app_assoc, load_outcomes_app, L1, L2.
    auto.
Qed.

Lemma uses_settled (us : list Use) self st :
  _factory self = None ->
  exists evs,
    calls (snd (uses H parse_uri us (self, st))) = calls st ++ evs /\
    settled (load_outcomes evs) (_factory (fst (uses H parse_uri us (self, st)))).
Proof.
  revert self st. induction us as [| u us IH]; intros self st E.
  - exists []. rewrite app_nil_r. simpl. now rewrite E.
  - rewrite uses_cons.
    destruct (use_fresh u self st E) as (evs1 & C1 & Q).
    destruct (use H parse_uri u (self, st)) as [self1 st1] eqn:U. simpl in *.
    assert (Fresh : _factory self1 = None ->
                    forallb unresolved (load_outcomes evs1) = true ->
                    exists evs,
                      calls (snd (uses H parse_uri us (self1, st1))) = calls st ++ evs /\
                      settled (load_outcomes evs)
                        (_factory (fst (uses H parse_uri us (self1, st1))))).
    { intros E1 A. destruct (IH self1 st1 E1) as (evs2 & C2 & S2).
      exists (evs1 ++ evs2). rewrite C2, C1, <- app_assoc. split; [reflexivity |].
      rewrite load_outcomes_app.
      destruct (_factory (fst (uses H parse_uri us (self1, st1)))) as [f |];
        simpl in *.
      - destruct S2 as (l & -> & B). exists (load_outcomes evs1 ++ l).
        rewrite <- app_assoc, forallb_app, A, B. auto.
      - now rewrite forallb_app, A, S2. }
    destruct Q as [[L1 M1] | (r & L1 & M1)].
    + apply Fresh; [exact M1 | now rewrite L1].
    + destruct r as [[f |] | e]; simpl in M1;
        try (apply Fresh; [exact M1 | now rewrite L1]).
      destruct (uses_memo us self1 st1 f M1) as (evs2 & C2 & L2 & S2).
      exists (evs1 ++ evs2).
      rewrite C2, C1, <- app_assoc, S2, M1. split; [reflexivity |].
      exists []. rewrite load_outcomes_app, L1, L2. auto.
Qed.

Lemma settled_no_import_after (rs : list (Result (option Object)))
    (memo : option Object) :
  settled rs memo ->
  forall l1 r l2, rs = l1 ++ r :: l2 -> resolved r = true -> l2 = [].
Proof.
  intros S l1 r l2 E R.
  assert (N : forall l, forallb unresolved l = true -> ~ In r l).
  { intros l A I. rewrite forallb_forall in A. apply A in I.
    unfold unresolved in I. now rewrite R in I. }
  destruct memo as [f |]; simpl in S.
  - destruct S as (l & -> & A).
    destruct (exists_last (l := r :: l2)) as (l2' & y & E2); [discriminate |].
    destruct l2' as [| r' l2'']; simpl in E2.
    + now injection E2 as _ ->.
    + injection E2 as <- ->. exfalso.
      rewrite app_comm_cons, app_assoc in E. apply app_inj_tail in E.
      destruct E as [-> _]. apply (N _ A). apply in_or_app. right. now left.
  - exfalso. apply (N _ S). rewrite E. apply in_or_app. right. now left.
Qed.

Lemma settled_one_resolved (rs : list (Result (option Object)))
    (memo : option Object) :
  settled rs memo -> length (filter resolved rs) <= 1.
Proof.
  assert (N : forall l, forallb unresolved l = true -> filter resolved l = []).
  { induction l as [| r l IH]; simpl; [reflexivity |].
    unfold unresolved at 1. intros A. apply andb_prop in A. destruct A as [A B].
    destruct (resolved r); [discriminate | auto]. }
  destruct memo as [f |]; simpl.
  - intros (l & -> & A). rewrite filter_app, (N _ A). simpl. lia.
  - intros A. rewrite (N _ A). simpl. lia.
Qed.

End Memo.

Lemma use_keeps_identity (H : Host) (parse_uri : UriArg -> Result ConfigURI)
    (u : Use) (s : Self H) :
  entry_point (fst (use H parse_uri u s)) = entry_point (fst s) /\
  info_scheme (fst (use H parse_uri u s)) = info_scheme (fst s) /\
  info_protocol (fst (use H parse_uri u s)) = info_protocol (fst s).
Proof.
  assert (F : entry_point (fst (snd (factory H s))) = entry_point (fst s) /\
              info_scheme (fst (snd (factory H s))) = info_scheme (fst s) /\
              info_protocol (fst (snd (factory H s))) = info_protocol (fst s)).
  { destruct s as [self st].
    destruct (_factory self) as [f |] eqn:M.
    - rewrite (factory_memo _ _ _ _ M). auto.
    - unfold factory, bind, get_self, ret, outside, entry_point_load, set__factory.
      simpl. rewrite M. simpl.
      destruct (ep_load H (entry_point self) (world st)) as [[v | e] w]; simpl; auto. }
  destruct u as [| c]; unfold use; [exact F |].
  rewrite load_steps. destruct (parse_uri c) as [u | e]; [| auto].
  destruct (factory H s) as [[f | e] [self1 st1]]; simpl in F |- *; [| exact F].
  destruct (outside_call_object H f u self1 st1) as (r & evs & st' & -> & _).
  exact F.
Qed.

Lemma uses_entry_point (H : Host) (parse_uri : UriArg -> Result ConfigURI)
    (us : list Use) (s : Self H) :
  entry_point (fst (uses H parse_uri us s)) = entry_point (fst s).
Proof.
  revert s. induction us as [| u us IH]; intros s; [reflexivity |].
  rewrite uses_cons, IH. apply use_keeps_identity.
Qed.

(** A read of [factory], or a load whose URI parses, on an instance with
    an empty memo slot: one import, whose value, if it returns one, goes
    into the slot. *)
Lemma use_fresh_exact (H : Host) (parse_uri : UriArg -> Result ConfigURI)
    (x : Use) (self : EntryPointLoaderInfo) (st : St H) :
  _factory self = None ->
  (x = ReadFactory \/ exists c u, x = Load c /\ parse_uri c = Ok u) ->
  exists evs,
    calls (snd (use H parse_uri x (self, st))) = calls st ++ evs /\
    load_outcomes evs = [fst (ep_load H (entry_point self) (world st))] /\
    _factory (fst (use H parse_uri x (self, st))) =
      match fst (ep_load H (entry_point self) (world st)) with
      | Ok v => v
      | Raise _ => None
      end.
Proof.
  intros E X. destruct (factory_fresh H self st E) as (r & self' & F & R & _ & M).
  rewrite <- R. destruct X as [-> | (c & u & -> & P)]; unfold use.
  - rewrite F. simpl. exists [CallEpLoad (entry_point self) r]. auto.
  - rewrite load_steps, P, F. destruct r as [v | e].
    + set (st1 := log H _ _ st).
      destruct (outside_call_object H v u self' st1) as (r' & evs & st' & -> & C & L).
      exists (CallEpLoad (entry_point self) (Ok v) :: evs). simpl.
      split; [rewrite C; subst st1; simpl; now rewrite <- app_assoc |].
      split; [now rewrite L | exact M].
    + simpl. exists [CallEpLoad (entry_point self) (Raise e)]. auto.
Qed.

(** C8, as the claim has it, fails: an entry point whose import raises is
    imported again at the next read of [factory] on the same instance. *)
Lemma failed_import_is_repeated :
  ~ loads_at_most_once Demo.host spec_parse_uri Demo.yaml_B None
      Demo.start [ReadFactory; ReadFactory].
Proof. vm_compute. lia. Qed.

(** The same happens when the entry point resolves to [None]. *)
Example none_import_is_repeated :
  imports Demo.host spec_parse_uri Demo.json_C None Demo.start
    [Load (Raw "json:a.json"); Load (Raw "json:a.json")] = [Ok None; Ok None].
Proof. reflexivity. Qed.

(** C8, amended: on a new instance the first read of [factory] imports the
    entry point; an import that produced a factory is the last one the
    instance makes, so at most one import per instance produces a factory;
    the factory it produced is memoized, and every later read or load on
    the instance uses the memoized value and imports nothing.  An import
    that raised or gave [None] leaves the slot empty, and with the slot
    empty the next read, or load of a URI that parses, imports the entry
    point again and stores what that import gives. *)
Theorem factory_memoized (H : Host) (parse_uri : UriArg -> Result ConfigURI)
    (ep : EntryPoint) (protocol : option string) (st : St H) (us : list Use) :
  let s' := uses H parse_uri us (EntryPointLoaderInfo_init ep protocol, st) in
  imports H parse_uri ep protocol st [ReadFactory] = [fst (ep_load H ep (world st))] /\
  (forall l1 r l2,
      imports H parse_uri ep protocol st us = l1 ++ r :: l2 ->
      resolved r = true -> l2 = []) /\
  length (filter resolved (imports H parse_uri ep protocol st us)) <= 1 /\
  (forall f,
      _factory (fst s') = Some f ->
      (exists l, imports H parse_uri ep protocol st us = l ++ [Ok (Some f)]) /\
      factory H s' = (Ok (Some f), s') /\
      (forall c u,
          parse_uri c = Ok u ->
          load H parse_uri c s' = outside H (call_object H (Some f) u) s') /\
      (forall more,
          imports H parse_uri ep protocol st (us ++ more) =
            imports H parse_uri ep protocol st us /\
          _factory (fst (uses H parse_uri more s')) = Some f)) /\
  (forall l r,
      imports H parse_uri ep protocol st us = l ++ [r] ->
      (resolved r = false -> _factory (fst s') = None) /\
      (forall f, r = Ok (Some f) -> _factory (fst s') = Some f)) /\
  (_factory (fst s') = None ->
   forall x,
     x = ReadFactory \/ (exists c u, x = Load c /\ parse_uri c = Ok u) ->
     imports H parse_uri ep protocol st (us ++ [x]) =
       imports H parse_uri ep protocol st us ++
       [fst (ep_load H ep (world (snd s')))] /\
     _factory (fst (uses H parse_uri [x] s')) =
       match fst (ep_load H ep (world (snd s'))) with
       | Ok v => v
       | Raise _ => None
       end).
Proof.
  intros s'. subst s'. unfold imports.
  set (new := EntryPointLoaderInfo_init ep protocol).
  assert (N : _factory new = None) by reflexivity.
  destruct (uses_settled H parse_uri us new st N) as (evs & C & S).
  set (s' := uses H parse_uri us (new, st)) in *.
  rewrite (new_calls_app _ _ _ C).
  split; [| split; [| split; [| split; [| split]]]].
  - destruct (factory_fresh H new st N) as (r & self' & F & R & _).
    unfold uses, use. simpl fold_left. rewrite F. simpl snd.
    rewrite (new_calls_app _ _ [CallEpLoad (entry_point new) r]) by reflexivity.
    simpl. now rewrite R.
  - exact (settled_no_import_after _ _ S).
  - exact (settled_one_resolved _ _ S).
  - intros f M. rewrite M in S. simpl in S. destruct S as (l & L & _).
    assert (Es : uses H parse_uri us (new, st) = s') by reflexivity.
    clearbody s'. destruct s' as [self1 st1]. simpl in M, C.
    split; [now exists l |].
    split; [now apply factory_memo |].
    split.
    + intros c u P. rewrite load_steps, P, (factory_memo _ _ _ _ M). reflexivity.
    + intros more. rewrite uses_app, Es.
      destruct (uses_memo H parse_uri more self1 st1 f M) as (evs2 & C2 & L2 & S2).
      rewrite S2. split; [| exact M].
      rewrite (new_calls_app _ _ (evs ++ evs2))
        by (rewrite C2, C; now rewrite <- app_assoc).
      now rewrite load_outcomes_app, L2, app_nil_r.
  - intros l r E. destruct (_factory (fst s')) as [f' |]; simpl in S.
    + destruct S as (l' & L' & _). rewrite L' in E. apply app_inj_tail in E.
      destruct E as [_ <-]. split; [discriminate | now intros f [= ->]].
    + split; [reflexivity |]. intros f ->.
      rewrite E, forallb_app in S. simpl in S.
      apply andb_prop in S. destruct S as [_ S]. discriminate.
  - intros M x X. rewrite uses_app.
    pose proof (uses_entry_point H parse_uri us (new, st)) as EP.
    fold s' in EP |- *. simpl in EP.
    destruct s' as [self1 st1]. simpl in M, C, EP |- *.
    destruct (use_fresh_exact H parse_uri x self1 st1 M X) as (evs2 & C2 & L2 & M2).
    rewrite EP in L2, M2.
    change (uses H parse_uri [x] (self1, st1)) with (use H parse_uri x (self1, st1)).
    split; [| exact M2].
    rewrite (new_calls_app _ _ (evs ++ evs2))
      by (rewrite C2, C; now rewrite <- app_assoc).
    now rewrite load_outcomes_app, L2.
Qed.

Lemma factory_memoized_witness :
  imports Demo.host spec_parse_uri Demo.ini_A None Demo.start
    ([ReadFactory; Load (Raw "ini:a.ini")] ++ [Load (Raw "ini:b.ini"); ReadFactory]) =
  [Ok (Some 20)] /\
  imports Rough.host spec_parse_uri Demo.ini_A None Rough.start
    ([ReadFactory] ++ [Load (Raw "ini:a.ini")]) =
  [Raise (Foreign "ImportError")] ++ [Ok (Some 7)].
Proof.
  split.
  - destruct (factory_memoized Demo.host spec_parse_uri Demo.ini_A None
                Demo.start [ReadFactory; Load (Raw "ini:a.ini")])
      as (_ & _ & _ & K & _).
    destruct (K 20 eq_refl) as (_ & _ & _ & R).
    exact (proj1 (R [Load (Raw "ini:b.ini"); ReadFactory])).
  - destruct (factory_memoized Rough.host spec_parse_uri Demo.ini_A None
                Rough.start [ReadFactory])
      as (_ & _ & _ & _ & _ & K).
    refine (proj1 (K eq_refl (Load (Raw "ini:a.ini")) _)).
    right. exists (Raw "ini:a.ini").
    exists {| scheme := "ini"; path := "a.ini"; fragment := None |}.
    split; reflexivity.
Defined.

(** ** Raw and parsed URIs *)

Section PassThrough.

Variable H : Host.
Variable parse_uri : UriArg -> Result ConfigURI.

(** A parser that hands a structured value back as it is. *)
Hypothesis pass_through : forall u, parse_uri (Parsed u) = Ok u.

Lemma load_parsed (c : UriArg) (u : ConfigURI) (s : Self H) :
  parse_uri c = Ok u ->
  load H parse_uri c s = load H parse_uri (Parsed u) s.
Proof. intros P. now rewrite !load_steps, P, pass_through. Qed.

Lemma get_loader_parsed (c : UriArg) (u : ConfigURI) (protocol : option string)
    (st : St H) :
  parse_uri c = Ok u ->
  get_loader H parse_uri c protocol st =
  get_loader H parse_uri (Parsed u) protocol st.
Proof. intros P. unfold get_loader, bind, lift. now rewrite P, pass_through. Qed.

End PassThrough.

(** C9: parsing passes a structured value through unchanged, so parsing
    the result of parsing a string gives that result again, and every
    string [sch:rest] parses; hence [get_loader] and [load] do the same
    with a raw string as with the value it parses to. *)
Theorem parse_uri_idempotent :
  (forall u, spec_parse_uri (Parsed u) = Ok u) /\
  (forall s u,
      spec_parse_uri (Raw s) = Ok u ->
      spec_parse_uri (Parsed u) = spec_parse_uri (Raw s)) /\
  (forall sch rest,
      Str.contains ":" sch = false ->
      exists u, spec_parse_uri (Raw (sch ++ ":" ++ rest)) = Ok u /\ scheme u = sch) /\
  (forall (H : Host) s u protocol (st : St H),
      spec_parse_uri (Raw s) = Ok u ->
      get_loader H spec_parse_uri (Raw s) protocol st =
      get_loader H spec_parse_uri (Parsed u) protocol st) /\
  (forall (H : Host) s u (self : Self H),
      spec_parse_uri (Raw s) = Ok u ->
      load H spec_parse_uri (Raw s) self = load H spec_parse_uri (Parsed u) self).
Proof.
  split; [reflexivity |].
  split; [intros s u ->; reflexivity |].
  split.
  - intros sch rest C. unfold spec_parse_uri. simpl.
    rewrite (StrFacts.cut_app ":" sch rest C).
    destruct (Str.cut "#" rest) as [[p frag] |]; eexists; split; reflexivity.
  - split.
    + intros H s u protocol st P. now apply get_loader_parsed.
    + intros H s u self P. now apply load_parsed.
Qed.

Lemma parse_uri_idempotent_witness :
  spec_parse_uri
    (Parsed {| scheme := "ini"; path := "development.ini"; fragment := Some "main" |}) =
  spec_parse_uri (Raw "ini:development.ini#main").
Proof.
  apply (proj1 (proj2 parse_uri_idempotent)). reflexivity.
Defined.

(** ** The facade *)

(** C10: [get_settings] resolves the loader with [get_loader] and no
    protocol, and is then exactly one call of the loader's [get_settings]
    with the section and the defaults as they were given, also when the
    section is [None]: its result and its exceptions are the loader's; when
    [get_loader] raises, the loader is never called. *)
Theorem get_settings_delegates (H : Host) (parse_uri : UriArg -> Result ConfigURI)
    (config_uri : UriArg) (section : option string) (defaults : option Object)
    (st : St H) :
  get_settings H parse_uri config_uri section defaults st =
  match get_loader H parse_uri config_uri None st with
  | (Ok loader, st1) =>
      (fst (loader_get_settings H loader section defaults (world st1)),
       {| world := snd (loader_get_settings H loader section defaults (world st1));
          calls := calls st1 ++ [CallGetSettings loader section defaults] |})
  | (Raise e, st1) => (Raise e, st1)
  end.
Proof.
  unfold get_settings, bind, call_get_settings, log.
  destruct (get_loader H parse_uri config_uri None st) as [[loader | e] st1];
    [| reflexivity].
  now destruct (loader_get_settings H loader section defaults (world st1)).
Qed.

(** The fragment of the URI is not consulted: with no section the loader
    is asked with [None], and what it raises is what the caller sees. *)
Example get_settings_no_section :
  fst (get_settings Demo.host spec_parse_uri (Raw "ini+dista:app.ini#main")
         None None Demo.start) = Raise (Foreign "NoSectionError") /\
  In (CallGetSettings 21 None None)
     (calls (snd (get_settings Demo.host spec_parse_uri
                    (Raw "ini+dista:app.ini#main") None None Demo.start))).
Proof. split; [reflexivity |]. vm_compute. tauto. Qed.

(** * Further properties of the module *)

(** ** Discovery *)

Lemma get_entry_map_dist (d : Distribution) (group : string) (ep : EntryPoint) :
  In ep (get_entry_map d group) -> dist ep = d.
Proof.
  unfold get_entry_map. generalize (entry_map d) as m.
  induction m as [| [g entries] m IH]; simpl; [tauto |].
  destruct (String.eqb g group); [| exact IH].
  intros I. apply in_map_iff in I. destruct I as (e & <- & _). reflexivity.
Qed.

Lemma named_spec (bare : string) (ep : EntryPoint) :
  named bare ep = true <-> Str.lower (name ep) = bare.
Proof. unfold named. rewrite String.eqb_eq. split; congruence. Qed.

Lemma rcut_scheme (bare dst : string) :
  Str.contains "+" dst = false ->
  Str.rcut "+" (Str.lower (bare ++ "+" ++ dst)) = Some (Str.lower bare, Str.lower dst).
Proof.
  intros C. rewrite StrFacts.lower_app. simpl.
  apply StrFacts.rcut_app. now rewrite StrFacts.contains_lower.
Qed.

(** What [find_loaders] leaves behind is the old state and a list of
    queries of the working set. *)
Lemma find_loaders_state (H : Host) (scheme : option string)
    (protocol : option string) (st : St H) :
  exists evs,
    snd (find_loaders H scheme protocol st) = after st evs /\
    forallb is_pkg_call evs = true.
Proof.
  destruct scheme as [scheme |].
  - pose proof (find_loaders_route H scheme protocol st) as R.
    inversion R; simpl; eexists; split; reflexivity.
  - rewrite find_loaders_any. simpl. eexists; split; reflexivity.
Qed.

(** X1: discovery runs no plugin code.  The outside calls [find_loaders]
    makes are queries of the working set: no entry point is imported, no
    factory and no loader is called; and the descriptors it returns have an
    empty memo slot. *)
Theorem find_loaders_imports_nothing (H : Host) (scheme : option string)
    (protocol : option string) (st : St H) :
  forallb is_pkg_call (new_calls st (snd (find_loaders H scheme protocol st))) = true /\
  imported (new_calls st (snd (find_loaders H scheme protocol st))) = [] /\
  factory_calls (new_calls st (snd (find_loaders H scheme protocol st))) = [] /\
  match fst (find_loaders H scheme protocol st) with
  | Ok infos => Forall (fun i => _factory i = None) infos
  | Raise _ => True
  end.
Proof.
  destruct (find_loaders_state H scheme protocol st) as (evs & E & P).
  rewrite E, new_calls_after. split; [exact P |].
  assert (Q : forall l, forallb is_pkg_call l = true ->
                        imported l = [] /\ factory_calls l = []).
  { induction l as [| e l IH]; simpl; [auto |].
    intros A. apply andb_prop in A. destruct A as [A B].
    destruct e; try discriminate; auto. }
  destruct (Q _ P) as [I F]. split; [exact I |]. split; [exact F |].
  destruct (find_loaders H scheme protocol st) as [[infos | e] st1] eqn:L;
    simpl; [| trivial].
  destruct (find_loaders_infos _ _ _ _ _ _ L) as (eps & ->).
  apply Forall_forall. intros i In_i. apply infos_of_fresh in In_i.
  destruct In_i as (ep & _ & ->). reflexivity.
Qed.

(** X3: a scheme without [+] selects by name, no more and no less.  The
    call returns, and a descriptor is in the result exactly when it was
    built from an entry point that the search over all packages yields for
    the group and whose lower-cased name is the lower-cased scheme. *)
Theorem bare_scheme_selects_by_name (H : Host) (s : string)
    (protocol : option string) (st : St H) :
  Str.contains "+" s = false ->
  exists infos,
    fst (find_loaders H (Some s) protocol st) = Ok infos /\
    length infos <= length (iter_entry_points H (group_of protocol)) /\
    forall info,
      In info infos <->
      exists ep,
        In ep (iter_entry_points H (group_of protocol)) /\
        Str.lower (name ep) = Str.lower s /\
        info = EntryPointLoaderInfo_init ep protocol.
Proof.
  intros C. rewrite <- StrFacts.contains_lower in C. apply StrFacts.rcut_none in C.
  rewrite (find_loaders_bare H s protocol st C). simpl. eexists. split; [reflexivity |].
  split.
  - unfold infos_of. rewrite length_map. apply filter_length_le.
  - intros info. unfold infos_of. rewrite in_map_iff. split.
    + intros (ep & <- & I). apply filter_In in I. destruct I as [I N].
      apply named_spec in N. eauto.
    + intros (ep & I & N & ->). exists ep. split; [reflexivity |].
      apply filter_In. split; [exact I |]. now apply named_spec.
Qed.

Lemma bare_scheme_selects_by_name_witness :
  exists infos,
    fst (find_loaders Demo.host (Some "YAML") None Demo.start) = Ok infos /\
    length infos <= length (iter_entry_points Demo.host (group_of None)) /\
    forall info,
      In info infos <->
      exists ep,
        In ep (iter_entry_points Demo.host (group_of None)) /\
        Str.lower (name ep) = Str.lower "YAML" /\
        info = EntryPointLoaderInfo_init ep None.
Proof.
  exact (bare_scheme_selects_by_name Demo.host "YAML" None Demo.start eq_refl).
Defined.

(** X4: a [+distribution] suffix that resolves and matches keeps the
    search inside that distribution.  When the distribution has an entry
    of the wanted name under the group, [find_loaders] returns a non-empty
    list of descriptors that are all owned by that distribution and all
    bear that name, and the search over all packages is not made. *)
Theorem suffix_keeps_search_in_distribution (H : Host) (bare dst : string)
    (distro : Distribution) (protocol : option string) (st : St H)
    (ep0 : EntryPoint) :
  Str.contains "+" dst = false ->
  get_distribution H (Str.lower dst) = Ok distro ->
  In ep0 (get_entry_map distro (group_of protocol)) ->
  Str.lower (name ep0) = Str.lower bare ->
  exists infos,
    find_loaders H (Some (bare ++ "+" ++ dst)%string) protocol st =
      (Ok infos, after st [CallGetDistribution (Str.lower dst);
                           CallGetEntryMap distro (group_of protocol)]) /\
    In (EntryPointLoaderInfo_init ep0 protocol) infos /\
    Forall (fun i =>
              dist (entry_point i) = distro /\
              Str.lower (name (entry_point i)) = Str.lower bare /\
              info_scheme i =
                (name (entry_point i) ++ "+" ++ project_name distro)%string)
           infos.
Proof.
  intros C D I0 N0.
  assert (F : In ep0 (filter (named (Str.lower bare))
                        (get_entry_map distro (group_of protocol))))
    by (apply filter_In; split; [exact I0 | now apply named_spec]).
  assert (NE : filter (named (Str.lower bare))
                 (get_entry_map distro (group_of protocol)) <> [])
    by (intros E; rewrite E in F; destruct F).
  rewrite (find_loaders_scoped H _ _ _ distro protocol st (rcut_scheme bare dst C) D NE).
  eexists. split; [reflexivity |]. split.
  - unfold infos_of. apply in_map_iff. eauto.
  - apply Forall_forall. intros i I. apply infos_of_fresh in I.
    destruct I as (ep & I & ->). apply filter_In in I. destruct I as [I N].
    apply named_spec in N. apply get_entry_map_dist in I. simpl.
    rewrite I. auto.
Qed.

Lemma suffix_keeps_search_in_distribution_witness :
  exists infos,
    find_loaders Demo.host (Some "INI+distB") None Demo.start =
      (Ok infos, after Demo.start [CallGetDistribution "distb";
                                   CallGetEntryMap Demo.distB "plaster.loader_factory"]) /\
    In (EntryPointLoaderInfo_init Demo.ini_B None) infos /\
    Forall (fun i =>
              dist (entry_point i) = Demo.distB /\
              Str.lower (name (entry_point i)) = Str.lower "INI" /\
              info_scheme i =
                (name (entry_point i) ++ "+" ++ project_name Demo.distB)%string)
           infos.
Proof.
  apply (suffix_keeps_search_in_distribution Demo.host "INI" "distB" Demo.distB
           None Demo.start Demo.ini_B).
  - reflexivity.
  - reflexivity.
  - left. reflexivity.
  - reflexivity.
Defined.

(** X5: the composite scheme of a descriptor leads back to it.  Let a
    descriptor be returned by some query under a protocol.  If the project
    name of its distribution has no [+] and resolves to that distribution,
    and its entry point is the only entry of the distribution, under the
    group, with its lower-cased name, then [find_loaders] with the
    descriptor's [scheme] and the same protocol returns that descriptor
    alone. *)
Theorem composite_scheme_round_trip (H : Host) (scheme0 : option string)
    (protocol : option string) (st0 st0' st : St H)
    (infos : list EntryPointLoaderInfo) (info : EntryPointLoaderInfo) :
  find_loaders H scheme0 protocol st0 = (Ok infos, st0') ->
  In info infos ->
  let ep := entry_point info in
  Str.contains "+" (project_name (dist ep)) = false ->
  get_distribution H (Str.lower (project_name (dist ep))) = Ok (dist ep) ->
  filter (fun e => String.eqb (Str.lower (name ep)) (Str.lower (name e)))
         (get_entry_map (dist ep) (group_of protocol)) = [ep] ->
  find_loaders H (Some (info_scheme info)) protocol st =
  (Ok [info], after st [CallGetDistribution (Str.lower (project_name (dist ep)));
                        CallGetEntryMap (dist ep) (group_of protocol)]).
Proof.
  intros L I ep C D U.
  destruct (find_loaders_infos _ _ _ _ _ _ L) as (eps & ->).
  apply infos_of_fresh in I. destruct I as (ep' & _ & ->).
  simpl in ep. subst ep. simpl info_scheme.
  fold (named (Str.lower (name ep'))) in U.
  assert (NE : filter (named (Str.lower (name ep')))
                 (get_entry_map (dist ep') (group_of protocol)) <> [])
    by (rewrite U; discriminate).
  pose proof (find_loaders_scoped H _ _ _ (dist ep') protocol st
                (rcut_scheme (name ep') (project_name (dist ep')) C) D NE) as Q.
  rewrite U in Q. exact Q.
Qed.

Lemma composite_scheme_round_trip_witness :
  find_loaders Demo.host
    (Some (info_scheme (EntryPointLoaderInfo_init Demo.ini_B None))) None Demo.start =
  (Ok [EntryPointLoaderInfo_init Demo.ini_B None],
   after Demo.start [CallGetDistribution "distb";
                     CallGetEntryMap Demo.distB "plaster.loader_factory"]).
Proof.
  apply (composite_scheme_round_trip Demo.host (Some "ini") None Demo.start
           (after Demo.start [CallIterEntryPoints "plaster.loader_factory"])
           Demo.start
           [EntryPointLoaderInfo_init Demo.ini_A None;
            EntryPointLoaderInfo_init Demo.ini_B None]).
  - reflexivity.
  - right. left. reflexivity.
  - reflexivity.
  - reflexivity.
  - reflexivity.
Defined.

(** ** Resolution *)

Section Resolution.

Variable H : Host.
Variable parse_uri : UriArg -> Result ConfigURI.

Implicit Types (st : St H) (info : EntryPointLoaderInfo).

(** [load] on an instance with an empty memo slot, step by step. *)
Lemma on_load_fresh info (c : UriArg) st :
  _factory info = None ->
  on H info (load H parse_uri c) st =
  match parse_uri c with
  | Raise e => (Raise e, st)
  | Ok u =>
      let (r, w) := ep_load H (entry_point info) (world st) in
      let st2 := log H (CallEpLoad (entry_point info) r) w st in
      match r with
      | Raise e => (Raise e, st2)
      | Ok None => (Raise TypeError, st2)
      | Ok (Some f) =>
          let (r', w') := call H f u w in (r', log H (CallFactory f u) w' st2)
      end
  end.
Proof.
  intros N. unfold on. rewrite load_steps.
  destruct (parse_uri c) as [u | e]; [| reflexivity].
  unfold factory, bind, get_self, ret, outside, entry_point_load, set__factory.
  simpl. rewrite N. simpl.
  destruct (ep_load H (entry_point info) (world st)) as [[[f |] | e] w]; simpl;
    try reflexivity.
  now destruct (call H f u w).
Qed.

(** [get_loader], step by step. *)
Lemma get_loader_steps (c : UriArg) (protocol : option string) st :
  get_loader H parse_uri c protocol st =
  match parse_uri c with
  | Raise e => (Raise e, st)
  | Ok u =>
      match find_loaders H (Some (scheme u)) protocol st with
      | (Raise e, st1) => (Raise e, st1)
      | (Ok [], st1) => (Raise (LoaderNotFound (scheme u) protocol), st1)
      | (Ok [info], st1) => on H info (load H parse_uri (Parsed u)) st1
      | (Ok matched, st1) =>
          (Raise (MultipleLoadersFound (scheme u) matched protocol), st1)
      end
  end.
Proof.
  unfold get_loader, bind, lift.
  destruct (parse_uri c) as [u | e]; [| reflexivity].
  destruct (find_loaders H (Some (scheme u)) protocol st) as [[matched | e] st1];
    [| reflexivity].
  now destruct matched as [| i [| j rest]].
Qed.

(** A single match is a new descriptor of a registered entry point. *)
Lemma single_match (s : option string) (protocol : option string) st st1 info :
  find_loaders H s protocol st = (Ok [info], st1) ->
  _factory info = None /\
  registered_under H (group_of protocol) (entry_point info).
Proof.
  intros F. split.
  - destruct (find_loaders_infos _ _ _ _ _ _ F) as (eps & E).
    assert (I : In info (infos_of protocol eps)) by (rewrite <- E; now left).
    apply infos_of_fresh in I. destruct I as (ep & _ & ->). reflexivity.
  - destruct (find_loaders_groups H s protocol st) as [_ R].
    rewrite F in R. destruct (R _ eq_refl) as [_ A].
    now inversion A.
Qed.

(** The calls of one [get_loader]: queries of the working set, all for
    the group of the protocol, then nothing, or the import of a registered
    entry point, or that import followed by the call of the factory it
    produced. *)
Lemma get_loader_trace (c : UriArg) (protocol : option string) st :
  exists evs tail,
    calls (snd (get_loader H parse_uri c protocol st)) = calls st ++ evs ++ tail /\
    forallb is_pkg_call evs = true /\
    Forall (fun e => forall g, event_group e = Some g -> g = group_of protocol) evs /\
    (tail = [] /\ world (snd (get_loader H parse_uri c protocol st)) = world st \/
     (exists ep r, tail = [CallEpLoad ep r] /\
                   registered_under H (group_of protocol) ep) \/
     (exists ep f u, tail = [CallEpLoad ep (Ok (Some f)); CallFactory f u] /\
                     registered_under H (group_of protocol) ep)).
Proof.
  rewrite get_loader_steps.
  destruct (parse_uri c) as [u | e].
  2:{ exists [], []. simpl. rewrite app_nil_r. repeat split; auto. }
  destruct (find_loaders_state H (Some (scheme u)) protocol st) as (evs & E & P).
  pose proof (proj1 (find_loaders_groups H (Some (scheme u)) protocol st)) as G.
  rewrite E, new_calls_after in G.
  destruct (find_loaders H (Some (scheme u)) protocol st) as [[matched | e] st1] eqn:F;
    simpl in E; subst st1.
  2:{ exists evs, []. simpl. rewrite app_nil_r. repeat split; auto. }
  destruct matched as [| info [| j rest]].
  1,3: exists evs, []; simpl; rewrite app_nil_r; repeat split; auto.
  destruct (single_match _ _ _ _ _ F) as [N R].
  rewrite (on_load_fresh _ _ _ N).
  destruct (parse_uri (Parsed u)) as [u' | e].
  2:{ exists evs, []. simpl. rewrite app_nil_r. repeat split; auto. }
  simpl world.
  destruct (ep_load H (entry_point info) (world st)) as [[[f |] | e] w].
  - destruct (call H f u' w) as [r' w'].
    exists evs, [CallEpLoad (entry_point info) (Ok (Some f)); CallFactory f u'].
    simpl. rewrite <- !app_assoc. simpl. repeat split; auto. right. right. eauto.
  - exists evs, [CallEpLoad (entry_point info) (Ok None)]. simpl.
    rewrite <- !app_assoc. repeat split; auto. right. left. eauto.
  - exists evs, [CallEpLoad (entry_point info) (Raise e)]. simpl.
    rewrite <- !app_assoc. repeat split; auto. right. left. eauto.
Qed.

End Resolution.

Lemma imported_app (l1 l2 : list Event) :
  imported (l1 ++ l2) = imported l1 ++ imported l2.
Proof.
  induction l1 as [| e l1 IH]; simpl; [reflexivity |].
  destruct e; simpl; now rewrite ?IH.
Qed.

Lemma factory_calls_app (l1 l2 : list Event) :
  factory_calls (l1 ++ l2) = factory_calls l1 ++ factory_calls l2.
Proof.
  induction l1 as [| e l1 IH]; simpl; [reflexivity |].
  destruct e; simpl; now rewrite ?IH.
Qed.

Lemma pkg_calls_quiet (l : list Event) :
  forallb is_pkg_call l = true ->
  imported l = [] /\ factory_calls l = [] /\ load_outcomes l = [] /\
  filter is_loader_call l = [].
Proof.
  induction l as [| e l IH]; simpl; [auto |].
  intros A. apply andb_prop in A. destruct A as [A B].
  destruct e; try discriminate; simpl; auto.
Qed.

(** X6: a URI that does not parse stops everything at once.  When
    [parse_uri] raises, [get_loader], the three facade functions and
    [load] raise that exception; no query of the working set is made, no
    plugin code runs, and the instance is left as it was. *)
Theorem unparsable_uri_stops_early (H : Host)
    (parse_uri : UriArg -> Result ConfigURI) (c : UriArg) (e : Exn)
    (protocol section : option string) (defaults : option Object) (st : St H)
    (self : EntryPointLoaderInfo) :
  parse_uri c = Raise e ->
  get_loader H parse_uri c protocol st = (Raise e, st) /\
  get_sections H parse_uri c st = (Raise e, st) /\
  get_settings H parse_uri c section defaults st = (Raise e, st) /\
  setup_logging H parse_uri c defaults st = (Raise e, st) /\
  load H parse_uri c (self, st) = (Raise e, (self, st)).
Proof.
  intros P.
  assert (G : forall p, get_loader H parse_uri c p st = (Raise e, st))
    by (intros p; now rewrite get_loader_steps, P).
  unfold get_sections, get_settings, setup_logging, bind.
  rewrite !G, load_steps, P. auto.
Qed.

Lemma unparsable_uri_stops_early_witness :
  get_settings Demo.host spec_parse_uri (Raw "development.ini") (Some "main") None
    Demo.start =
  (Raise (InvalidURI "development.ini"), Demo.start).
Proof.
  apply (unparsable_uri_stops_early Demo.host spec_parse_uri (Raw "development.ini")
           (InvalidURI "development.ini") None (Some "main") None Demo.start
           (EntryPointLoaderInfo_init Demo.ini_A None)).
  reflexivity.
Defined.

(** X7: what a returned loader tells.  If [get_loader] returns a loader,
    then the query had exactly one match, registered under the group of
    the protocol; its entry point was imported once and gave a factory; and
    the loader is what that factory returned for the parsed URI.  Nothing
    else was called. *)
Theorem get_loader_returns_inversion (H : Host)
    (parse_uri : UriArg -> Result ConfigURI) (c : UriArg)
    (protocol : option string) (st st' : St H) (loader : Object) :
  get_loader H parse_uri c protocol st = (Ok loader, st') ->
  exists u info st1 u' f w w',
    parse_uri c = Ok u /\
    find_loaders H (Some (scheme u)) protocol st = (Ok [info], st1) /\
    registered_under H (group_of protocol) (entry_point info) /\
    parse_uri (Parsed u) = Ok u' /\
    ep_load H (entry_point info) (world st1) = (Ok (Some f), w) /\
    call H f u' w = (Ok loader, w') /\
    st' = {| world := w';
             calls := calls st1 ++ [CallEpLoad (entry_point info) (Ok (Some f));
                                    CallFactory f u'] |}.
Proof.
  rewrite get_loader_steps.
  destruct (parse_uri c) as [u | e] eqn:P; [| discriminate].
  destruct (find_loaders H (Some (scheme u)) protocol st) as [[matched | e] st1] eqn:F;
    [| discriminate].
  destruct matched as [| info [| j rest]]; try discriminate.
  destruct (single_match _ _ _ _ _ _ F) as [N R].
  rewrite (on_load_fresh _ _ _ _ _ N).
  destruct (parse_uri (Parsed u)) as [u' | e] eqn:P'; [| discriminate].
  destruct (ep_load H (entry_point info) (world st1)) as [[[f |] | e] w] eqn:L;
    try discriminate.
  destruct (call H f u' w) as [r' w'] eqn:C. intros [= -> <-].
  exists u, info, st1, u', f, w, w'. unfold log. simpl.
  rewrite <- app_assoc. repeat split; auto.
Qed.

Lemma get_loader_returns_inversion_witness :
  exists u info st1 u' f w w',
    spec_parse_uri (Raw "ini+distb:app.ini#main") = Ok u /\
    find_loaders Demo.host (Some (scheme u)) None Demo.start = (Ok [info], st1) /\
    registered_under Demo.host (group_of None) (entry_point info) /\
    spec_parse_uri (Parsed u) = Ok u' /\
    ep_load Demo.host (entry_point info) (world st1) = (Ok (Some f), w) /\
    call Demo.host f u' w = (Ok 13, w') /\
    snd (get_loader Demo.host spec_parse_uri (Raw "ini+distb:app.ini#main") None
           Demo.start) =
      {| world := w';
         calls := calls st1 ++ [CallEpLoad (entry_point info) (Ok (Some f));
                                CallFactory f u'] |}.
Proof.
  exact (get_loader_returns_inversion Demo.host spec_parse_uri
           (Raw "ini+distb:app.ini#main") None Demo.start _ 13 eq_refl).
Defined.

(** X8: one [get_loader], at most one plugin.  Whatever the outcome, a
    call of [get_loader] imports at most one entry point, one that is
    registered under the group of the protocol, calls at most one factory,
    the one that import produced, calls no method of a loader, and queries
    no group but the group of the protocol. *)
Theorem get_loader_runs_at_most_one_plugin (H : Host)
    (parse_uri : UriArg -> Result ConfigURI) (c : UriArg)
    (protocol : option string) (st : St H) :
  let new := new_calls st (snd (get_loader H parse_uri c protocol st)) in
  length (imported new) <= 1 /\
  Forall (registered_under H (group_of protocol)) (imported new) /\
  length (factory_calls new) <= 1 /\
  (forall f u, In (f, u) (factory_calls new) -> load_outcomes new = [Ok (Some f)]) /\
  filter is_loader_call new = [] /\
  Forall (fun e => forall g, event_group e = Some g -> g = group_of protocol) new.
Proof.
  intros new. subst new.
  destruct (get_loader_trace H parse_uri c protocol st)
    as (evs & tail & C & P & G & T).
  rewrite (new_calls_app _ _ _ C).
  destruct (pkg_calls_quiet _ P) as (I & F & L & M).
  rewrite imported_app, factory_calls_app, load_outcomes_app, filter_app, I, F, L, M.
  simpl.
  assert (GA : forall t, Forall (fun e => event_group e = None) t ->
               Forall (fun e => forall g, event_group e = Some g -> g = group_of protocol)
                      (evs ++ t)).
  { intros t A. apply Forall_app. split; [exact G |].
    apply Forall_forall. intros e In_e g E.
    rewrite (proj1 (Forall_forall _ _) A e In_e) in E. discriminate. }
  destruct T as [[-> _] | [(ep & r & -> & R) | (ep & f & u & -> & R)]]; simpl.
  - repeat split; auto. intros f u [].
  - repeat split; auto. intros f u [].
  - repeat split; auto.
    intros f' u' [[= <- <-] | []]. reflexivity.
Qed.

(** X9: absence and ambiguity are found before any plugin runs.  When the
    query has no match or several, [get_loader] raises, and up to then it
    has imported nothing and called no factory. *)
Theorem no_plugin_code_unless_single_match (H : Host)
    (parse_uri : UriArg -> Result ConfigURI) (c : UriArg)
    (protocol : option string) (st st1 : St H) (u : ConfigURI)
    (matched : list EntryPointLoaderInfo) :
  parse_uri c = Ok u ->
  find_loaders H (Some (scheme u)) protocol st = (Ok matched, st1) ->
  length matched <> 1 ->
  (exists e, fst (get_loader H parse_uri c protocol st) = Raise e) /\
  imported (new_calls st (snd (get_loader H parse_uri c protocol st))) = [] /\
  factory_calls (new_calls st (snd (get_loader H parse_uri c protocol st))) = [].
Proof.
  intros P F L.
  destruct (find_loaders_state H (Some (scheme u)) protocol st) as (evs & E & Q).
  rewrite F in E. simpl in E. subst st1.
  destruct (pkg_calls_quiet _ Q) as (I & K & _).
  rewrite get_loader_steps, P, F.
  destruct matched as [| info [| j rest]]; simpl in L; try congruence;
    simpl; rewrite new_calls_after; eauto.
Qed.

Lemma no_plugin_code_unless_single_match_witness :
  (exists e, fst (get_loader Demo.host spec_parse_uri (Raw "ini:app.ini") None
                    Demo.start) = Raise e) /\
  imported (new_calls Demo.start
              (snd (get_loader Demo.host spec_parse_uri (Raw "ini:app.ini") None
                      Demo.start))) = [] /\
  factory_calls (new_calls Demo.start
                   (snd (get_loader Demo.host spec_parse_uri (Raw "ini:app.ini") None
                           Demo.start))) = [].
Proof.
  apply (no_plugin_code_unless_single_match Demo.host spec_parse_uri
           (Raw "ini:app.ini") None Demo.start
           (after Demo.start [CallIterEntryPoints "plaster.loader_factory"])
           {| scheme := "ini"; path := "app.ini"; fragment := None |}
           [EntryPointLoaderInfo_init Demo.ini_A None;
            EntryPointLoaderInfo_init Demo.ini_B None]).
  - reflexivity.
  - reflexivity.
  - discriminate.
Defined.

(** X10: what a plugin raises is what the caller gets.  With a single
    match, an exception raised by the import of the entry point, or by the
    factory, leaves [get_loader] as it is, with no wrapping; and an entry
    point that resolves to [None] makes [get_loader] raise [TypeError]
    without any factory being called. *)
Theorem plugin_errors_propagate (H : Host)
    (parse_uri : UriArg -> Result ConfigURI) (c : UriArg)
    (protocol : option string) (st st1 : St H) (u u' : ConfigURI)
    (info : EntryPointLoaderInfo) :
  parse_uri c = Ok u ->
  find_loaders H (Some (scheme u)) protocol st = (Ok [info], st1) ->
  parse_uri (Parsed u) = Ok u' ->
  (forall e w,
      ep_load H (entry_point info) (world st1) = (Raise e, w) ->
      get_loader H parse_uri c protocol st =
      (Raise e, {| world := w;
                   calls := calls st1 ++ [CallEpLoad (entry_point info) (Raise e)] |})) /\
  (forall w,
      ep_load H (entry_point info) (world st1) = (Ok None, w) ->
      get_loader H parse_uri c protocol st =
      (Raise TypeError,
       {| world := w;
          calls := calls st1 ++ [CallEpLoad (entry_point info) (Ok None)] |})) /\
  (forall f w e w',
      ep_load H (entry_point info) (world st1) = (Ok (Some f), w) ->
      call H f u' w = (Raise e, w') ->
      get_loader H parse_uri c protocol st =
      (Raise e,
       {| world := w';
          calls := calls st1 ++ [CallEpLoad (entry_point info) (Ok (Some f));
                                 CallFactory f u'] |})).
Proof.
  intros P F P'.
  destruct (single_match _ _ _ _ _ _ F) as [N _].
  rewrite get_loader_steps, P, F, (on_load_fresh _ _ _ _ _ N), P'.
  split; [| split].
  - intros e w L. now rewrite L.
  - intros w L. now rewrite L.
  - intros f w e w' L C. rewrite L, C. unfold log. simpl.
    now rewrite <- app_assoc.
Qed.

Lemma plugin_errors_propagate_witness :
  get_loader Demo.host spec_parse_uri (Raw "yaml:app.yaml") None Demo.start =
  (Raise (Foreign "ImportError"),
   Build_St Demo.host 1
     [CallIterEntryPoints "plaster.loader_factory";
      CallEpLoad Demo.yaml_B (Raise (Foreign "ImportError"))]).
Proof.
  apply (proj1 (plugin_errors_propagate Demo.host spec_parse_uri
                  (Raw "yaml:app.yaml") None Demo.start
                  (after Demo.start [CallIterEntryPoints "plaster.loader_factory"])
                  {| scheme := "yaml"; path := "app.yaml"; fragment := None |}
                  {| scheme := "yaml"; path := "app.yaml"; fragment := None |}
                  (EntryPointLoaderInfo_init Demo.yaml_B None)
                  eq_refl eq_refl eq_refl)).
  reflexivity.
Defined.

(** X2: only [DistributionNotFound] is swallowed.  For a scheme
    [bare+dst], when resolving [dst] raises any other exception,
    [find_loaders] raises that exception, having made no call but the
    lookup; and [get_loader] on a URI with that scheme raises it too, not
    [LoaderNotFound]. *)
Theorem lookup_errors_propagate (H : Host)
    (parse_uri : UriArg -> Result ConfigURI) (bare dst : string) (e : Exn)
    (protocol : option string) (st : St H) :
  Str.contains "+" dst = false ->
  get_distribution H (Str.lower dst) = Raise e ->
  is_DistributionNotFound e = false ->
  (fst (find_loaders H (Some (bare ++ "+" ++ dst)%string) protocol st) = Raise e /\
   new_calls st (snd (find_loaders H (Some (bare ++ "+" ++ dst)%string) protocol st)) =
     [CallGetDistribution (Str.lower dst)]) /\
  (forall c u,
      parse_uri c = Ok u ->
      scheme u = (bare ++ "+" ++ dst)%string ->
      fst (get_loader H parse_uri c protocol st) = Raise e /\
      new_calls st (snd (get_loader H parse_uri c protocol st)) =
        [CallGetDistribution (Str.lower dst)]).
Proof.
  intros C D N.
  pose proof (find_loaders_lookup_fails H _ _ _ e protocol st
                (rcut_scheme bare dst C) D N) as F.
  split.
  - rewrite F. simpl. now rewrite new_calls_after.
  - intros c u P S. rewrite get_loader_steps, P, S, F. simpl.
    now rewrite new_calls_after.
Qed.

Lemma lookup_errors_propagate_witness :
  fst (get_loader Rough.host spec_parse_uri (Raw "ini+:app.ini") None Rough.start) =
    Raise (Foreign "ValueError") /\
  new_calls Rough.start
    (snd (get_loader Rough.host spec_parse_uri (Raw "ini+:app.ini") None Rough.start)) =
    [CallGetDistribution ""].
Proof.
  apply (proj2 (lookup_errors_propagate Rough.host spec_parse_uri "ini" ""
                  (Foreign "ValueError") None Rough.start
                  eq_refl eq_refl eq_refl)
           (Raw "ini+:app.ini")
           {| scheme := "ini+"; path := "app.ini"; fragment := None |}).
  - reflexivity.
  - reflexivity.
Defined.

(** ** The facade *)

Section Facade.

Variable H : Host.
Variable parse_uri : UriArg -> Result ConfigURI.

Lemma call_get_sections_one : one_loader_call (call_get_sections H).
Proof.
  intros loader st1. unfold call_get_sections.
  destruct (loader_get_sections H loader (world st1)). simpl. eauto.
Qed.

Lemma call_get_settings_one (section : option string) (defaults : option Object) :
  one_loader_call (fun loader => call_get_settings H loader section defaults).
Proof.
  intros loader st1. unfold call_get_settings.
  destruct (loader_get_settings H loader section defaults (world st1)). simpl. eauto.
Qed.

Lemma call_setup_logging_one (defaults : option Object) :
  one_loader_call (fun loader => call_setup_logging H loader defaults).
Proof.
  intros loader st1. unfold call_setup_logging.
  destruct (loader_setup_logging H loader defaults (world st1)). simpl. eauto.
Qed.

Lemma facade_trace (k : Object -> M (St H) Object) (c : UriArg) (st : St H) :
  one_loader_call k ->
  let new := new_calls st (snd (bind (get_loader H parse_uri c None) k st)) in
  Forall (fun e => forall g, event_group e = Some g -> g = "plaster.loader_factory") new /\
  length (imported new) <= 1 /\
  length (factory_calls new) <= 1 /\
  length (filter is_loader_call new) <= 1.
Proof.
  intros K new. subst new.
  destruct (get_loader_trace H parse_uri c None st) as (evs & tail & C & P & G & T).
  destruct (pkg_calls_quiet _ P) as (I & F & _ & M).
  assert (Q : length (imported tail) <= 1 /\ length (factory_calls tail) <= 1 /\
              filter is_loader_call tail = [] /\
              Forall (fun e => forall g, event_group e = Some g ->
                                         g = "plaster.loader_factory") tail).
  { destruct T as [[-> _] | [(ep & r & -> & _) | (ep & f & u & -> & _)]]; simpl;
      repeat split; auto; repeat constructor; discriminate. }
  destruct Q as (Q1 & Q2 & Q3 & Q4).
  unfold bind.
  destruct (get_loader H parse_uri c None st) as [[loader | e] st1]; simpl in C |- *.
  - destruct (K loader st1) as (e & E & L). rewrite C in E.
    rewrite (new_calls_app _ _ ((evs ++ tail) ++ [e]))
      by (rewrite E; now rewrite <- !app_assoc).
    rewrite !imported_app, !factory_calls_app, !filter_app, I, F, M, Q3.
    simpl. rewrite L.
    repeat split.
    + repeat (apply Forall_app; split); auto.
      constructor; [| constructor]. destruct e; discriminate.
    + destruct e; try discriminate; simpl; rewrite app_nil_r; exact Q1.
    + destruct e; try discriminate; simpl; rewrite app_nil_r; exact Q2.
    + simpl. lia.
  - rewrite (new_calls_app _ _ _ C).
    rewrite !imported_app, !factory_calls_app, !filter_app, I, F, M, Q3.
    simpl. repeat split; auto. apply Forall_app. auto.
Qed.

End Facade.

(** X11: [get_sections] and [setup_logging] stand on [get_loader].  When
    [get_loader], asked with no protocol, raises, both raise the same
    exception in the same state and no loader is called; when it returns a
    loader, each is one call of that loader's method of the same name,
    [setup_logging] passing [defaults] on as given, and what the method
    returns or raises is the result. *)
Theorem facade_delegates (H : Host) (parse_uri : UriArg -> Result ConfigURI)
    (c : UriArg) (defaults : option Object) (st : St H) :
  match get_loader H parse_uri c None st with
  | (Ok loader, st1) =>
      get_sections H parse_uri c st =
        (fst (loader_get_sections H loader (world st1)),
         {| world := snd (loader_get_sections H loader (world st1));
            calls := calls st1 ++ [CallGetSections loader] |}) /\
      setup_logging H parse_uri c defaults st =
        (fst (loader_setup_logging H loader defaults (world st1)),
         {| world := snd (loader_setup_logging H loader defaults (world st1));
            calls := calls st1 ++ [CallSetupLogging loader defaults] |})
  | (Raise e, st1) =>
      get_sections H parse_uri c st = (Raise e, st1) /\
      setup_logging H parse_uri c defaults st = (Raise e, st1)
  end.
Proof.
  unfold get_sections, setup_logging, bind, call_get_sections, call_setup_logging, log.
  destruct (get_loader H parse_uri c None st) as [[loader | e] st1]; [| auto].
  destruct (loader_get_sections H loader (world st1)).
  destruct (loader_setup_logging H loader defaults (world st1)). auto.
Qed.

(** X12: the facade never looks at protocol-scoped plugins.  Whatever the
    URI, each of [get_sections], [get_settings] and [setup_logging]
    queries the working set for the group ["plaster.loader_factory"] only,
    imports at most one entry point, calls at most one factory and makes at
    most one call of a loader method. *)
Theorem facade_stays_in_unscoped_group (H : Host)
    (parse_uri : UriArg -> Result ConfigURI) (c : UriArg)
    (section : option string) (defaults : option Object) (st : St H) :
  let quiet (st' : St H) :=
    Forall (fun e => forall g, event_group e = Some g -> g = "plaster.loader_factory")
           (new_calls st st') /\
    length (imported (new_calls st st')) <= 1 /\
    length (factory_calls (new_calls st st')) <= 1 /\
    length (filter is_loader_call (new_calls st st')) <= 1 in
  quiet (snd (get_sections H parse_uri c st)) /\
  quiet (snd (get_settings H parse_uri c section defaults st)) /\
  quiet (snd (setup_logging H parse_uri c defaults st)).
Proof.
  intros quiet. subst quiet. cbv beta.
  split; [| split].
  - exact (facade_trace H parse_uri _ c st (call_get_sections_one H)).
  - exact (facade_trace H parse_uri _ c st (call_get_settings_one H section defaults)).
  - exact (facade_trace H parse_uri _ c st (call_setup_logging_one H defaults)).
Qed.

(** ** Loading again *)

Lemma load_memo (H : Host) (parse_uri : UriArg -> Result ConfigURI)
    (c : UriArg) (u : ConfigURI) (self : EntryPointLoaderInfo) (st : St H)
    (f : Object) :
  _factory self = Some f ->
  parse_uri c = Ok u ->
  snd (load H parse_uri c (self, st)) =
  (self, log H (CallFactory f u) (snd (call H f u (world st))) st).
Proof.
  intros M P. rewrite load_steps, P, (factory_memo _ _ _ _ M).
  unfold outside, call_object. simpl.
  now destruct (call H f u (world st)).
Qed.

Lemma loads_memo (H : Host) (parse_uri : UriArg -> Result ConfigURI)
    (cus : list (UriArg * ConfigURI)) (self : EntryPointLoaderInfo) (st : St H)
    (f : Object) :
  _factory self = Some f ->
  Forall (fun p => parse_uri (fst p) = Ok (snd p)) cus ->
  calls (snd (uses H parse_uri (map (fun p => Load (fst p)) cus) (self, st))) =
  calls st ++ map (fun p => CallFactory f (snd p)) cus.
Proof.
  intros M. revert st. induction cus as [| [c u] cus IH]; intros st A.
  - simpl. now rewrite app_nil_r.
  - inversion A as [| x l P A']; subst. simpl in P.
    simpl map. rewrite uses_cons. unfold use.
    rewrite (load_memo _ _ _ _ _ _ _ M P), (IH _ A'). simpl.
    now rewrite <- app_assoc.
Qed.

(** X13: the factory is imported once and called for every load.  On a
    new descriptor whose entry point imports to a factory, a run of loads
    with URIs that parse makes one import, at the first load, and then one
    call of that factory per load, each with the URI of its own load:
    loaders are built anew every time and never kept. *)
Theorem each_load_calls_the_factory (H : Host)
    (parse_uri : UriArg -> Result ConfigURI) (ep : EntryPoint)
    (protocol : option string) (st : St H) (f : Object) (w : World H)
    (cu : UriArg * ConfigURI) (cus : list (UriArg * ConfigURI)) :
  ep_load H ep (world st) = (Ok (Some f), w) ->
  Forall (fun p => parse_uri (fst p) = Ok (snd p)) (cu :: cus) ->
  new_calls st
    (snd (uses H parse_uri (map (fun p => Load (fst p)) (cu :: cus))
            (EntryPointLoaderInfo_init ep protocol, st))) =
  CallEpLoad ep (Ok (Some f)) :: map (fun p => CallFactory f (snd p)) (cu :: cus).
Proof.
  intros L A. inversion A as [| x l P A']; subst.
  destruct cu as [c u]. simpl in P. simpl map. rewrite uses_cons.
  apply new_calls_app.
  assert (E : exists self1 st1,
             use H parse_uri (Load c) (EntryPointLoaderInfo_init ep protocol, st) =
               (self1, st1) /\
             _factory self1 = Some f /\
             calls st1 = calls st ++ [CallEpLoad ep (Ok (Some f)); CallFactory f u]).
  { unfold use. rewrite load_steps, P.
    unfold factory, bind, get_self, ret, outside, entry_point_load, set__factory,
      call_object.
    simpl. rewrite L. simpl.
    destruct (call H f u w) as [r w']. simpl.
    eexists _, _. split; [reflexivity |]. split; [reflexivity |].
    simpl. now rewrite <- app_assoc. }
  destruct E as (self1 & st1 & -> & M & C).
  rewrite (loads_memo _ _ _ _ _ _ M A'), C, <- app_assoc. reflexivity.
Qed.

Lemma each_load_calls_the_factory_witness :
  new_calls Demo.start
    (snd (uses Demo.host spec_parse_uri
            [Load (Raw "ini:a.ini"); Load (Raw "ini:b.ini#main")]
            (EntryPointLoaderInfo_init Demo.ini_A None, Demo.start))) =
  [CallEpLoad Demo.ini_A (Ok (Some 20));
   CallFactory 20 {| scheme := "ini"; path := "a.ini"; fragment := None |};
   CallFactory 20 {| scheme := "ini"; path := "b.ini"; fragment := Some "main" |}].
Proof.
  apply (each_load_calls_the_factory Demo.host spec_parse_uri Demo.ini_A None
           Demo.start 20 1
           (Raw "ini:a.ini", {| scheme := "ini"; path := "a.ini"; fragment := None |})
           [(Raw "ini:b.ini#main",
             {| scheme := "ini"; path := "b.ini"; fragment := Some "main" |})]).
  - reflexivity.
  - repeat constructor.
Defined.

(** ** Disambiguation *)

(** X14: the schemes of the listed matches disambiguate.  Let a query
    list a descriptor whose distribution resolves by its project name (a
    name with no [+]) and has, under the group, no other entry of that
    lower-cased name.  Then [get_loader] on a URI whose scheme is the
    descriptor's composite [scheme] finds that descriptor alone, without
    the search over all packages, and is [load] on it. *)
Theorem disambiguated_scheme_resolves (H : Host)
    (parse_uri : UriArg -> Result ConfigURI) (scheme0 : option string)
    (protocol : option string) (st0 st0' st : St H)
    (infos : list EntryPointLoaderInfo) (info : EntryPointLoaderInfo)
    (c : UriArg) (u : ConfigURI) :
  find_loaders H scheme0 protocol st0 = (Ok infos, st0') ->
  In info infos ->
  let ep := entry_point info in
  Str.contains "+" (project_name (dist ep)) = false ->
  get_distribution H (Str.lower (project_name (dist ep))) = Ok (dist ep) ->
  filter (fun e => String.eqb (Str.lower (name ep)) (Str.lower (name e)))
         (get_entry_map (dist ep) (group_of protocol)) = [ep] ->
  parse_uri c = Ok u ->
  scheme u = info_scheme info ->
  get_loader H parse_uri c protocol st =
  on H info (load H parse_uri (Parsed u))
     (after st [CallGetDistribution (Str.lower (project_name (dist ep)));
                CallGetEntryMap (dist ep) (group_of protocol)]).
Proof.
  intros L I ep C D U P S.
  destruct (find_loaders_infos _ _ _ _ _ _ L) as (eps & ->).
  apply infos_of_fresh in I. destruct I as (ep' & _ & ->).
  simpl in ep. subst ep.
  fold (named (Str.lower (name ep'))) in U.
  assert (NE : filter (named (Str.lower (name ep')))
                 (get_entry_map (dist ep') (group_of protocol)) <> [])
    by (rewrite U; discriminate).
  pose proof (find_loaders_scoped H _ _ _ (dist ep') protocol st
                (rcut_scheme (name ep') (project_name (dist ep')) C) D NE) as Q.
  rewrite U in Q.
  rewrite get_loader_steps, P, S.
  change (info_scheme (EntryPointLoaderInfo_init ep' protocol))
    with (name ep' ++ "+" ++ project_name (dist ep'))%string.
  rewrite Q. reflexivity.
Qed.

Lemma disambiguated_scheme_resolves_witness :
  get_loader Demo.host spec_parse_uri (Raw "ini+distA:app.ini") None Demo.start =
  on Demo.host (EntryPointLoaderInfo_init Demo.ini_A None)
     (load Demo.host spec_parse_uri
        (Parsed {| scheme := "ini+distA"; path := "app.ini"; fragment := None |}))
     (after Demo.start [CallGetDistribution "dista";
                        CallGetEntryMap Demo.distA "plaster.loader_factory"]).
Proof.
  apply (disambiguated_scheme_resolves Demo.host spec_parse_uri (Some "ini") None
           Demo.start
           (after Demo.start [CallIterEntryPoints "plaster.loader_factory"])
           Demo.start
           [EntryPointLoaderInfo_init Demo.ini_A None;
            EntryPointLoaderInfo_init Demo.ini_B None]
           (EntryPointLoaderInfo_init Demo.ini_A None)
           (Raw "ini+distA:app.ini")
           {| scheme := "ini+distA"; path := "app.ini"; fragment := None |}).
  - reflexivity.
  - left. reflexivity.
  - reflexivity.
  - reflexivity.
  - reflexivity.
  - reflexivity.
  - reflexivity.
Defined.

(** ** What an instance keeps *)

(** X15: only the memo slot of a descriptor ever changes.  Through any
    sequence of reads of [factory] and of loads, failed ones included, the
    descriptor keeps its entry point, its [scheme] and its [protocol]. *)
Theorem instance_identity_is_stable (H : Host)
    (parse_uri : UriArg -> Result ConfigURI) (us : list Use) (s : Self H) :
  entry_point (fst (uses H parse_uri us s)) = entry_point (fst s) /\
  info_scheme (fst (uses H parse_uri us s)) = info_scheme (fst s) /\
  info_protocol (fst (uses H parse_uri us s)) = info_protocol (fst s).
Proof.
  revert s. induction us as [| u us IH]; intros s; [auto |].
  rewrite uses_cons.
  destruct (IH (use H parse_uri u s)) as (A & B & C).
  destruct (use_keeps_identity H parse_uri u s) as (A' & B' & C').
  rewrite A, B, C. auto.
Qed.
